(** * OnlineMEME: the online EM estimator of a motif mixture model

    A shallow embedding of [OnlineMEME.py] and the properties of its
    likelihood, responsibility, batch M-step and streaming update.

    Numbers.  The program computes with numpy doubles.  Here a double is an
    exact rational ([Qc], canonical fractions, so that equality is Leibniz
    equality and every definition still evaluates): rounding, overflow and
    underflow are not modelled.  A division by zero does not raise in numpy;
    it yields nan or an infinity and the run goes on with it.  Such values
    have no rational counterpart: a computation that meets a zero divisor
    has the outcome [NotFinite] below, and the model does not follow what
    the non-finite values do afterwards.

    Where rounding and underflow decide a property, the responsibility is
    also given on binary64 doubles themselves ([Z0_I_double], on Rocq's
    primitive floats), with the operations of the program in their
    order. *)

From Stdlib Require Import PrimFloat.
From Stdlib Require Import String Ascii List Bool Arith ZArith QArith Qcanon.
From Stdlib Require Import Lia Lqa Setoid.
Import ListNotations.

Open Scope Qc_scope.

(** ** Outcomes *)

(** The exceptions the modelled code can raise. *)
Inductive exn : Type :=
| IndexError          (* boolean mask whose shape is not that of the array *)
| ValueError          (* concatenate with different row lengths *)
| ZeroDivisionError.  (* Python integer division by zero *)

Inductive result (A : Type) : Type :=
| Ok (a : A)
| NotFinite
| Raise (e : exn).

Arguments Ok {A} a.
Arguments NotFinite {A}.
Arguments Raise {A} e.

Definition bind {A B : Type} (r : result A) (k : A -> result B) : result B :=
  match r with
  | Ok a => k a
  | NotFinite => NotFinite
  | Raise e => Raise e
  end.

Notation "x <- r ;; k" := (bind r (fun x => k))
  (at level 61, r at next level, right associativity).

(** ** Arrays *)

Definition vector := list Qc.
Definition matrix := list vector.
Definition mask := list (list bool).

(** [True] and [False] as numpy multiplies them. *)
Definition of_bool (b : bool) : Qc := if b then 1 else 0.

Definition vsum (v : vector) : Qc := fold_right Qcplus 0 v.
Definition vprod (v : vector) : Qc := fold_right Qcmult 1 v.

Fixpoint map2 {A B C : Type} (f : A -> B -> C) (l : list A) (l' : list B) : list C :=
  match l, l' with
  | a :: t, b :: t' => f a b :: map2 f t t'
  | _, _ => []
  end.

(** Elementwise operations.  Their operands have equal shapes wherever the
    program uses them (the mask check of [select] comes first); numpy's
    broadcasting of unequal shapes is not modelled. *)
Definition vadd : vector -> vector -> vector := map2 Qcplus.
Definition madd : matrix -> matrix -> matrix := map2 vadd.
Definition msub : matrix -> matrix -> matrix := map2 (map2 Qcminus).
Definition mscale (k : Qc) (m : matrix) : matrix := map (map (Qcmult k)) m.
(** A double times a boolean matrix, [Z*I]. *)
Definition mask_scale (z : Qc) (I : mask) : matrix :=
  map (map (fun b => z * of_bool b)) I.

(** [x / y] on doubles. *)
Definition fdiv (x y : Qc) : result Qc :=
  if Qc_eq_bool y 0 then NotFinite else Ok (x / y).

(** [v / s], a vector by a scalar. *)
Definition vdiv (v : vector) (s : Qc) : result vector :=
  if Qc_eq_bool s 0 then NotFinite else Ok (map (fun x => x / s) v).

(** [m.sum(axis=0)].  On a matrix without rows numpy gives a row of zeros;
    its width is not kept by the list, the total is [0] either way. *)
Definition colsum (m : matrix) : vector :=
  match m with
  | [] => []
  | r :: rs => fold_left vadd rs r
  end.

(** ** Boolean-mask indexing, [theta[I]] *)

(** The selected entries, row by row.  A mask whose shape is not the shape
    of the array is an [IndexError], as in numpy 1.13 and later (earlier
    versions indexed with the positions of the true entries). *)

Fixpoint select_row (I : list bool) (t : vector) : result vector :=
  match I, t with
  | [], [] => Ok []
  | i :: I', x :: t' =>
      r <- select_row I' t' ;; Ok (if i then x :: r else r)
  | _, _ => Raise IndexError
  end.

Fixpoint select (I : mask) (theta : matrix) : result vector :=
  match I, theta with
  | [], [] => Ok []
  | Ir :: I', tr :: theta' =>
      r <- select_row Ir tr ;;
      rs <- select I' theta' ;;
      Ok (r ++ rs)
  | _, _ => Raise IndexError
  end.

(** ** The program *)

Definition pI_motif (I : mask) (theta_motif : matrix) : result Qc :=
  ps <- select I theta_motif ;;
  Ok (vprod ps).

Definition pI_background (I : mask) (theta_background_matrix : matrix) : result Qc :=
  ps <- select I theta_background_matrix ;;
  Ok (vprod ps).

Definition Z0_I (I : mask) (theta_motif theta_background_matrix : matrix)
    (lambda_motif : Qc) : result Qc :=
  pm <- pI_motif I theta_motif ;;
  let a := pm * lambda_motif in
  pb <- pI_background I theta_background_matrix ;;
  let b := pb * (1 - lambda_motif) in
  fdiv a (a + b).

Definition nucleotides : list ascii := ["A"; "C"; "G"; "T"]%char.

Definition sequenceToI (X : string) : mask :=
  map (fun l => map (Ascii.eqb l) nucleotides) (list_ascii_of_string X).

(** *** The responsibility on doubles *)

(** [pI_motif], [pI_background] and [Z0_I] once more, on binary64 doubles:
    [theta[I]] selects the entries in row order, [prod()] multiplies them
    from the left starting at 1, and a division never fails (a zero
    divisor gives an infinity or nan). *)
Definition dvector := list float.
Definition dmatrix := list dvector.

Fixpoint dselect_row (I : list bool) (t : dvector) : result dvector :=
  match I, t with
  | [], [] => Ok []
  | i :: I', x :: t' =>
      r <- dselect_row I' t' ;; Ok (if i then x :: r else r)
  | _, _ => Raise IndexError
  end.

Fixpoint dselect (I : mask) (theta : dmatrix) : result dvector :=
  match I, theta with
  | [], [] => Ok []
  | Ir :: I', tr :: theta' =>
      r <- dselect_row Ir tr ;;
      rs <- dselect I' theta' ;;
      Ok (r ++ rs)
  | _, _ => Raise IndexError
  end.

Definition dprod (v : dvector) : float := fold_left PrimFloat.mul v 1%float.

Definition pI_motif_double (I : mask) (theta_motif : dmatrix) : result float :=
  ps <- dselect I theta_motif ;;
  Ok (dprod ps).

Definition pI_background_double (I : mask) (theta_background_matrix : dmatrix)
  : result float :=
  ps <- dselect I theta_background_matrix ;;
  Ok (dprod ps).

Definition Z0_I_double (I : mask) (theta_motif theta_background_matrix : dmatrix)
    (lambda_motif : float) : result float :=
  pm <- pI_motif_double I theta_motif ;;
  let a := (pm * lambda_motif)%float in
  pb <- pI_background_double I theta_background_matrix ;;
  let b := (pb * (1 - lambda_motif))%float in
  Ok (a / (a + b))%float.

(** *** The batch M-step *)

Definition vscale (k : Qc) (v : vector) : vector := map (Qcmult k) v.

(** [diag(v)]: the square matrix with [v] on its diagonal. *)
Fixpoint diag (v : vector) : matrix :=
  match v with
  | [] => []
  | x :: v' => (x :: map (fun _ => 0) v') :: map (cons 0) (diag v')
  end.

(** One row of a matrix product: the combination of the rows of [B] with the
    coefficients [a], a row of [width] columns. *)
Fixpoint lincomb (width : nat) (a : vector) (B : matrix) : vector :=
  match a, B with
  | x :: a', r :: B' => vadd (vscale x r) (lincomb width a' B')
  | _, _ => repeat 0 width
  end.

Definition dot (width : nat) (A B : matrix) : matrix :=
  map (fun a => lincomb width a B) A.

(** [1/v], elementwise. *)
Fixpoint vinv (v : vector) : result vector :=
  match v with
  | [] => Ok []
  | x :: v' => y <- fdiv 1 x ;; ys <- vinv v' ;; Ok (y :: ys)
  end.

(** [concatenate((array([c0]), c))]. *)
Definition concatenate (c0 : vector) (c : matrix) : result matrix :=
  if forallb (fun r => Nat.eqb (length r) (length c0)) c
  then Ok (c0 :: c) else Raise ValueError.

(** [Z_total/n].  [Z_total] starts as the Python integer [0] and becomes a
    double with the first value added to it; [n] is a Python integer. *)
Definition Z_total_over_n (Zs : list (list Qc)) (n : BinInt.Z) : result Qc :=
  let Z_total := vsum (concat Zs) in
  match concat Zs with
  | [] => if BinInt.Z.eqb n 0 then Raise ZeroDivisionError else Ok 0
  | _ :: _ => fdiv Z_total (Q2Qc (inject_Z n))
  end.

(** With [n = 0] and some [Z] value the quotient is no number and the model
    stops there, while the program goes on to [concatenate]; what is proved
    of [M] has [n <> 0] or no [Z] value. *)
Definition M (Zs : list (list Qc)) (n : BinInt.Z) (c0 : vector) (c : matrix)
  : result (Qc * matrix * matrix) :=
  lambda_motif <- Z_total_over_n Zs n ;;
  c <- concatenate c0 c ;;
  d <- vinv (map vsum c) ;;
  let f := dot (length c0) (diag d) c in
  let theta_motif := tl f in
  let theta_background := hd [] f in
  let theta_background_matrix := repeat theta_background (length theta_motif) in
  Ok (lambda_motif, theta_motif, theta_background_matrix).

(** *** The online estimator *)

(** The variables of the loop of [Online_EM]. *)
Record em_state : Type := mk_state {
  s1_1 : Qc;
  s1_2 : matrix;
  s2_2 : matrix;
  n : nat;
  lambda_motif : Qc;
  theta_motif : matrix;
  theta_background_matrix : matrix
}.

Definition step : Qc := Q2Qc (17 # 20).

(** The background rebuilt from [s2_2]: the last four lines of the M-step.
    For an [s2_2] without rows the program divides 0 by 0 and repeats the
    nan row zero times; the model has [NotFinite] there. *)
Definition rebuild_background (W : nat) (s2_2 : matrix) : result matrix :=
  let theta_background := colsum s2_2 in
  theta_background <- vdiv theta_background (vsum theta_background) ;;
  Ok (repeat theta_background W).

(** The body of the loop, for the sequence [y]; [str(y)] is the string
    itself. *)
Definition online_step (W : nat) (st : em_state) (y : string) : result em_state :=
  let I := sequenceToI y in
  (* E-step *)
  ds1_1 <- Z0_I I (theta_motif st) (theta_background_matrix st) (lambda_motif st) ;;
  let ds1_2 := mask_scale ds1_1 I in
  let ds2_2 := mask_scale (1 - ds1_1) I in
  let s1_1' := s1_1 st + step * (ds1_1 - s1_1 st) in
  let s1_2' := madd (s1_2 st) (mscale step (msub ds1_2 (s1_2 st))) in
  let s2_2' := madd (s2_2 st) (mscale step (msub ds2_2 (s2_2 st))) in
  (* M-step *)
  theta_background_matrix' <- rebuild_background W s2_2' ;;
  Ok {| s1_1 := s1_1'; s1_2 := s1_2'; s2_2 := s2_2';
        n := S (n st);
        lambda_motif := s1_1';
        theta_motif := s1_2';
        theta_background_matrix := theta_background_matrix' |}.

(** The [for] loop.  A step that meets a zero divisor ends the modelled run
    with [NotFinite]; the program itself goes on with the nan values and
    may still raise on a later sequence.  What is proved of the loop is
    about runs that return numbers, or about its first step. *)
Fixpoint online_loop (W : nat) (st : em_state) (Y : list string) : result em_state :=
  match Y with
  | [] => Ok st
  | y :: Y' => st' <- online_step W st y ;; online_loop W st' Y'
  end.

Definition online_init (theta_motif theta_background_matrix : matrix)
    (lambda_motif : Qc) : em_state :=
  {| s1_1 := lambda_motif; s1_2 := theta_motif; s2_2 := theta_background_matrix;
     n := 1;
     lambda_motif := lambda_motif;
     theta_motif := theta_motif;
     theta_background_matrix := theta_background_matrix |}.

Definition Online_EM (Y : list string) (theta_motif0 theta_background_matrix0 : matrix)
    (lambda_motif0 : Qc) : result (matrix * matrix * Qc) :=
  let W := length theta_motif0 in
  st <- online_loop W (online_init theta_motif0 theta_background_matrix0 lambda_motif0) Y ;;
  Ok (theta_motif st, theta_background_matrix st, lambda_motif st).

(** *** The batch E-step *)

(** A list comprehension over a function that may raise or give no number:
    the elements are evaluated in order, the first exception is raised, also
    after a value that is no number. *)
Fixpoint traverse {A B : Type} (f : A -> result B) (l : list A) : result (list B) :=
  match l with
  | [] => Ok []
  | x :: t =>
      match f x, traverse f t with
      | Raise e, _ => Raise e
      | _, Raise e => Raise e
      | NotFinite, _ => NotFinite
      | _, NotFinite => NotFinite
      | Ok y, Ok ys => Ok (y :: ys)
      end
  end.

(** [Iij.sum(axis=0)], the number of true entries of each column. *)
Definition mask_colsum (I : mask) : vector := colsum (map (map of_bool) I).

(** The body of the inner loop of [E], on [(c0, c)]. *)
Definition E_accumulate (acc : vector * matrix) (ZI : Qc * mask) : vector * matrix :=
  let '(c0, c) := acc in
  let '(Zij, Iij) := ZI in
  (vadd c0 (vscale (1 - Zij) (mask_colsum Iij)), madd c (mask_scale Zij Iij)).

(** The two nested loops of [E], on [(c0, c)]. *)
Definition E_loops (Zs : list (list Qc)) (I : list (list mask))
    (acc : vector * matrix) : vector * matrix :=
  fold_left (fun acc ZiIi => fold_left E_accumulate (combine (fst ZiIi) (snd ZiIi)) acc)
            (combine Zs I) acc.

(** [I] is a list of lists of indicator matrices.  [theta_motif.shape[1]] is
    the length of the first row; a matrix without rows keeps no width in
    the list, and [E] is modelled for matrices with at least one row. *)
Definition E (I : list (list mask)) (theta_motif theta_background_matrix : matrix)
    (lambda_motif : Qc) : result (list (list Qc) * vector * matrix) :=
  Zs <- traverse
          (fun Ii => traverse
             (fun Iij => Z0_I Iij theta_motif theta_background_matrix lambda_motif) Ii)
          I ;;
  let L := length (hd [] theta_motif) in
  let c0 := repeat 0 L in
  let c := map (fun r : vector => repeat 0 (length r)) theta_motif in
  let '(c0, c) := E_loops Zs I (c0, c) in
  Ok (Zs, c0, c).

(** *** The driver *)

(** [meme], up to its output: the model handed to [outputMotif].  The motif
    read from the file [NRF1_Motif.npy] is the parameter [NRF1_Motif];
    [NPASSES] is not used by the program. *)
Definition meme (NRF1_Motif : matrix) (Y : list string) (W NPASSES : nat)
  : result (matrix * matrix * Qc) :=
  let lambda_motif := Q2Qc (1 # 2) in
  let theta_motif := NRF1_Motif in
  let theta_uniform_background :=
    [[Q2Qc (1 # 4); Q2Qc (1 # 4); Q2Qc (1 # 4); Q2Qc (1 # 4)]] in
  let theta_uniform_background_matrix :=
    flat_map (fun r : vector => repeat r W) theta_uniform_background in
  Online_EM Y theta_motif theta_uniform_background_matrix lambda_motif.

(** A natural number as a rational. *)
Fixpoint Qc_of_nat (k : nat) : Qc :=
  match k with
  | O => 0
  | S k' => 1 + Qc_of_nat k'
  end.

(** An indicator matrix of nucleotides: four columns, one true entry in
    every row. *)
Definition one_hot_mask (I : mask) : Prop :=
  Forall (fun Ir : list bool => length Ir = 4%nat /\ vsum (map of_bool Ir) = 1) I.

(** A string of nucleotides. *)
Definition nucleotide_string (X : string) : Prop :=
  Forall (fun l => In l nucleotides) (list_ascii_of_string X).

(** ** Reference definitions *)

(** Equation 14 of Bailey and Elkan in its indicator form: a position
    contributes the entries of its row that the indicator row selects. *)
Definition selected_prob (Irow : list bool) (row : vector) : Qc :=
  vprod (map2 (fun (b : bool) x => if b then x else 1) Irow row).

Definition likelihood (I : mask) (theta : matrix) : Qc :=
  vprod (map2 selected_prob I theta).

Definition same_shape (I : mask) (theta : matrix) : Prop :=
  Forall2 (fun (Ir : list bool) (tr : vector) => length Ir = length tr) I theta.

(** The column of a letter, [None] for a symbol that is not a nucleotide. *)
Definition letter_index (l : ascii) : option nat :=
  if Ascii.eqb l "A" then Some 0%nat
  else if Ascii.eqb l "C" then Some 1%nat
  else if Ascii.eqb l "G" then Some 2%nat
  else if Ascii.eqb l "T" then Some 3%nat
  else None.

(** The probabilities a matrix gives to the letters of a sequence, position
    by position; a position whose symbol is no nucleotide gives none. *)
Definition observed (theta : matrix) (X : list ascii) : vector :=
  concat (map2 (fun (row : vector) l =>
                  match letter_index l with
                  | Some k => [nth k row 0]
                  | None => []
                  end) theta X).

(** A probability matrix: entries in [0,1], every row a distribution. *)
Definition stochastic_row (r : vector) : Prop :=
  Forall (fun x => 0 <= x) r /\ vsum r = 1.

(** ** Definitions used by the statements *)

(** *** The update as a weighted mean *)

(** The update [s + step*(ds - s)] of one entry, as a weighted mean. *)
Definition blend (s ds : Qc) : Qc := Q2Qc (3 # 20) * s + Q2Qc (17 # 20) * ds.

Definition mblend (s ds : matrix) : matrix := map2 (map2 blend) s ds.

(** *** Invariants of the loop *)

(** What holds of the loop variables whenever the loop is at its head. *)
Record loop_invariant (W : nat) (first : bool) (st : em_state) : Prop := {
  inv_lambda : lambda_motif st = s1_1 st;
  inv_motif : theta_motif st = s1_2 st;
  inv_background :
    if first then theta_background_matrix st = s2_2 st
    else rebuild_background W (s2_2 st) = Ok (theta_background_matrix st)
}.

Definition is_nil {A : Type} (l : list A) : bool :=
  match l with [] => true | _ :: _ => false end.

(** The row lengths of an array. *)
Definition shape_of {A : Type} (m : list (list A)) : list nat := map (@length A) m.

(** The shapes the loop relies on: the motif matrix is [s1_2], and [s2_2] is
    the background matrix on the first iteration and has the shape of
    [s1_2] afterwards. *)
Definition shape_invariant (first : bool) (st : em_state) : Prop :=
  theta_motif st = s1_2 st /\
  (if first then theta_background_matrix st = s2_2 st
   else shape_of (s2_2 st) = shape_of (s1_2 st)).



(** *** Normalised rows and rectangular arrays *)

(** A row divided by its own sum. *)
Definition normalize_row (r : vector) : vector := map (fun x => x / vsum r) r.

Definition rectangular (width : nat) (m : matrix) : Prop :=
  Forall (fun r : vector => length r = width) m.

(** *** Concrete inputs *)

Definition half : Qc := Q2Qc (1 # 2).
Definition quarter : Qc := Q2Qc (1 # 4).
Definition third : Qc := Q2Qc (1 # 3).
Definition uniform_row : vector := [quarter; quarter; quarter; quarter].

(** The motif that is the sequence ACGT with certainty. *)
Definition motif_ACGT : matrix :=
  [[1; 0; 0; 0]; [0; 1; 0; 0]; [0; 0; 1; 0]; [0; 0; 0; 1]].

(** A one-position model with no support on the letter A. *)
Definition motif_not_A : matrix := [[0; 1; 0; 0]].
Definition background_not_A : matrix := [[0; third; third; third]].

(** The loop on the sequences A, A from the motif "A", a uniform
    background and weight one half: its state after one and after two
    iterations. *)
Definition state0 : em_state := online_init [[1; 0; 0; 0]] [uniform_row] half.

Definition state1 : em_state :=
  {| s1_1 := Q2Qc (151 # 200);
     s1_2 := [[Q2Qc (83 # 100); 0; 0; 0]];
     s2_2 := [[Q2Qc (83 # 400); Q2Qc (3 # 80); Q2Qc (3 # 80); Q2Qc (3 # 80)]];
     n := 2;
     lambda_motif := Q2Qc (151 # 200);
     theta_motif := [[Q2Qc (83 # 100); 0; 0; 0]];
     theta_background_matrix :=
       [[Q2Qc (83 # 128); Q2Qc (15 # 128); Q2Qc (15 # 128); Q2Qc (15 # 128)]] |}.

Definition state2 : em_state :=
  {| s1_1 := Q2Qc (19172621 # 24228000);
     s1_2 := [[Q2Qc (9722593 # 12114000); 0; 0; 0]];
     s2_2 := [[Q2Qc (9838193 # 48456000); Q2Qc (9 # 1600); Q2Qc (9 # 1600);
               Q2Qc (9 # 1600)]];
     n := 3;
     lambda_motif := Q2Qc (19172621 # 24228000);
     theta_motif := [[Q2Qc (9722593 # 12114000); 0; 0; 0]];
     theta_background_matrix :=
       [[Q2Qc (9838193 # 10655888); Q2Qc (272565 # 10655888);
         Q2Qc (272565 # 10655888); Q2Qc (272565 # 10655888)]] |}.

(** * Properties *)

(** ** Rationals *)

Lemma this_plus (x y : Qc) : (this (x + y) == this x + this y)%Q.
Proof. unfold Qcplus, Q2Qc, this. apply Qred_correct. Qed.

Lemma this_mult (x y : Qc) : (this (x * y) == this x * this y)%Q.
Proof. unfold Qcmult, Q2Qc, this. apply Qred_correct. Qed.

Lemma this_opp (x : Qc) : (this (- x) == - this x)%Q.
Proof. unfold Qcopp, Q2Qc, this. apply Qred_correct. Qed.

Lemma this_minus (x y : Qc) : (this (x - y) == this x - this y)%Q.
Proof. unfold Qcminus. rewrite this_plus, this_opp. reflexivity. Qed.

Lemma this_inv (x : Qc) : (this (/ x) == / this x)%Q.
Proof. unfold Qcinv, Q2Qc, this. apply Qred_correct. Qed.

Lemma this_div (x y : Qc) : (this (x / y) == this x / this y)%Q.
Proof. unfold Qcdiv. rewrite this_mult, this_inv. reflexivity. Qed.

Lemma this_Q2Qc (q : Q) : (this (Q2Qc q) == q)%Q.
Proof. apply Qred_correct. Qed.

(** Moves an order or equality goal on [Qc] to [Q], where [lra] and [nra]
    work. *)
Ltac qc2q :=
  unfold Qcle, Qclt in *;
  repeat (rewrite ?this_plus, ?this_minus, ?this_mult, ?this_div,
            ?this_opp, ?this_inv, ?this_Q2Qc in * );
  change (this 0) with 0%Q in *;
  change (this 1) with 1%Q in *.

(** Closes an equation between evaluated arrays of rationals. *)
Ltac by_evaluation :=
  vm_compute;
  repeat first [ apply Qc_is_canon; vm_compute; reflexivity
               | reflexivity
               | f_equal ].

Lemma Qc_eq_bool_refl (x : Qc) : Qc_eq_bool x x = true.
Proof. unfold Qc_eq_bool. destruct (Qc_eq_dec x x); congruence. Qed.

Lemma Qc_eq_bool_neq (x y : Qc) : x <> y -> Qc_eq_bool x y = false.
Proof. unfold Qc_eq_bool. destruct (Qc_eq_dec x y); congruence. Qed.


Lemma Qc_pos_neq (x : Qc) : 0 < x -> x <> 0.
Proof. intros H E. subst x. apply (Qclt_not_le _ _ H), Qcle_refl. Qed.

Lemma fdiv_ok (x y : Qc) : y <> 0 -> fdiv x y = Ok (x / y).
Proof. intros H. unfold fdiv. now rewrite Qc_eq_bool_neq. Qed.

Lemma fdiv_zero (x : Qc) : fdiv x 0 = NotFinite.
Proof. unfold fdiv. now rewrite Qc_eq_bool_refl. Qed.


Lemma bind_ok {A B : Type} (r : result A) (k : A -> result B) (b : B) :
  bind r k = Ok b -> exists a, r = Ok a /\ k a = Ok b.
Proof. destruct r; simpl; try discriminate. intros H. now exists a. Qed.

(** ** Likelihood *)

Lemma vprod_app (u v : vector) : vprod (u ++ v) = vprod u * vprod v.
Proof.
  induction u as [|x u IH]; simpl.
  - ring.
  - rewrite IH. ring.
Qed.

Lemma select_row_spec (Ir : list bool) (tr : vector) :
  length Ir = length tr ->
  exists ps, select_row Ir tr = Ok ps /\ vprod ps = selected_prob Ir tr.
Proof.
  revert tr. induction Ir as [|b Ir IH]; intros [|x tr] L; try discriminate.
  - exists []. now split.
  - simpl in L. injection L as L. destruct (IH tr L) as (ps & E & P).
    simpl. rewrite E. simpl.
    exists (if b then x :: ps else ps). split; [reflexivity|].
    unfold selected_prob in *. simpl. rewrite <- P.
    destruct b; simpl; ring.
Qed.

Lemma select_spec (I : mask) (theta : matrix) :
  same_shape I theta ->
  exists ps, select I theta = Ok ps /\ vprod ps = likelihood I theta.
Proof.
  induction 1 as [|Ir tr I theta L _ IH].
  - exists []. now split.
  - destruct (select_row_spec Ir tr L) as (r & Er & Pr).
    destruct IH as (rs & Es & Ps).
    simpl. rewrite Er, Es. simpl. exists (r ++ rs). split; [reflexivity|].
    rewrite vprod_app, Pr, Ps. reflexivity.
Qed.

Lemma select_row_shape (Ir : list bool) (tr ps : vector) :
  select_row Ir tr = Ok ps -> length Ir = length tr.
Proof.
  revert tr ps. induction Ir as [|b Ir IH]; intros [|x tr] ps; simpl;
    try discriminate; [reflexivity|].
  intros H. apply bind_ok in H as (r & E & _). f_equal. eauto.
Qed.

Lemma select_shape (I : mask) (theta : matrix) (ps : vector) :
  select I theta = Ok ps -> same_shape I theta.
Proof.
  revert theta ps. induction I as [|Ir I IH]; intros [|tr theta] ps; simpl;
    try discriminate; [constructor|].
  intros H. apply bind_ok in H as (r & Er & H).
  apply bind_ok in H as (rs & Es & _).
  constructor; [eapply select_row_shape|eapply IH]; eauto.
Qed.

Lemma pI_motif_likelihood (I : mask) (theta : matrix) :
  same_shape I theta -> pI_motif I theta = Ok (likelihood I theta).
Proof.
  intros S. destruct (select_spec I theta S) as (ps & E & P).
  unfold pI_motif. rewrite E. simpl. now rewrite P.
Qed.

Lemma pI_background_likelihood (I : mask) (theta : matrix) :
  same_shape I theta -> pI_background I theta = Ok (likelihood I theta).
Proof. exact (pI_motif_likelihood I theta). Qed.

Lemma pI_motif_inv (I : mask) (theta : matrix) (p : Qc) :
  pI_motif I theta = Ok p -> same_shape I theta /\ p = likelihood I theta.
Proof.
  intros H. assert (S : same_shape I theta).
  { unfold pI_motif in H. apply bind_ok in H as (ps & E & _).
    eapply select_shape; eauto. }
  split; [exact S|]. rewrite (pI_motif_likelihood I theta S) in H. congruence.
Qed.

Lemma pI_background_inv (I : mask) (theta : matrix) (p : Qc) :
  pI_background I theta = Ok p -> same_shape I theta /\ p = likelihood I theta.
Proof. exact (pI_motif_inv I theta p). Qed.

(** The responsibility in closed form, whenever the two masks fit. *)
Lemma Z0_I_unfold (I : mask) (tm tb : matrix) (lam : Qc) :
  same_shape I tm -> same_shape I tb ->
  Z0_I I tm tb lam =
  fdiv (likelihood I tm * lam)
       (likelihood I tm * lam + likelihood I tb * (1 - lam)).
Proof.
  intros Sm Sb. unfold Z0_I.
  rewrite (pI_motif_likelihood I tm Sm), (pI_background_likelihood I tb Sb).
  reflexivity.
Qed.

(** ** The responsibility *)

Lemma Qc_neq_of_bool (x y : Qc) : Qc_eq_bool x y = false -> x <> y.
Proof. intros H E. subst y. rewrite Qc_eq_bool_refl in H. discriminate. Qed.

Lemma Qc_eq_of_bool (x y : Qc) : Qc_eq_bool x y = true -> x = y.
Proof. apply Qc_eq_bool_correct. Qed.

(** The fraction of Bayes' rule on [Q]: its denominator is positive, its
    value is a probability, and it grows with the mixture weight. *)
Lemma bayes_denominator_pos (a b l : Q) :
  (0 < a -> 0 < b -> 0 <= l -> l <= 1 -> 0 < a * l + b * (1 - l))%Q.
Proof. intros. nra. Qed.

Lemma bayes_fraction_bounds (a b l : Q) :
  (0 < a -> 0 < b -> 0 <= l -> l <= 1 ->
   0 <= a * l / (a * l + b * (1 - l)) /\ a * l / (a * l + b * (1 - l)) <= 1)%Q.
Proof.
  intros Ha Hb H0 H1.
  pose proof (bayes_denominator_pos a b l Ha Hb H0 H1) as D.
  split.
  - apply Qle_shift_div_l; [exact D|]. nra.
  - apply Qle_shift_div_r; [exact D|]. nra.
Qed.

Lemma bayes_fraction_mono (a b l1 l2 : Q) :
  (0 < a -> 0 < b -> 0 <= l1 -> l1 <= l2 -> l2 <= 1 ->
   a * l1 / (a * l1 + b * (1 - l1)) <= a * l2 / (a * l2 + b * (1 - l2)))%Q.
Proof.
  intros Ha Hb H0 H12 H1.
  assert (D1 : (0 < a * l1 + b * (1 - l1))%Q) by (apply bayes_denominator_pos; lra).
  assert (D2 : (0 < a * l2 + b * (1 - l2))%Q) by (apply bayes_denominator_pos; lra).
  apply Qle_shift_div_r; [exact D1|].
  assert (E : (a * l2 / (a * l2 + b * (1 - l2)) * (a * l1 + b * (1 - l1))
               == a * l2 * (a * l1 + b * (1 - l1)) / (a * l2 + b * (1 - l2)))%Q).
  { field. lra. }
  rewrite E. apply Qle_shift_div_l; [exact D2|].
  assert (P : (0 < a * b)%Q) by nra.
  nra.
Qed.

Lemma bayes_fraction_strict (a b l1 l2 : Q) :
  (0 < a -> 0 < b -> 0 <= l1 -> l1 < l2 -> l2 <= 1 ->
   a * l1 / (a * l1 + b * (1 - l1)) < a * l2 / (a * l2 + b * (1 - l2)))%Q.
Proof.
  intros Ha Hb H0 H12 H1.
  assert (D1 : (0 < a * l1 + b * (1 - l1))%Q) by (apply bayes_denominator_pos; lra).
  assert (D2 : (0 < a * l2 + b * (1 - l2))%Q) by (apply bayes_denominator_pos; lra).
  apply Qlt_shift_div_r; [exact D1|].
  assert (E : (a * l2 / (a * l2 + b * (1 - l2)) * (a * l1 + b * (1 - l1))
               == a * l2 * (a * l1 + b * (1 - l1)) / (a * l2 + b * (1 - l2)))%Q).
  { field. lra. }
  rewrite E. apply Qlt_shift_div_l; [exact D2|].
  assert (P : (0 < a * b)%Q) by nra.
  nra.
Qed.

Lemma Qc_denominator_pos (a b l : Qc) :
  0 < a -> 0 < b -> 0 <= l -> l <= 1 -> 0 < a * l + b * (1 - l).
Proof. intros. qc2q. now apply bayes_denominator_pos. Qed.

(** C3.  For every indicator matrix [I], motif matrix, background matrix and
    mixture weight with [a_raw * lambda + b_raw * (1 - lambda)] different
    from zero, [Z0_I] returns
    [a_raw * lambda / (a_raw * lambda + b_raw * (1 - lambda))], where [a_raw]
    is the product over the positions of the motif probabilities that the
    indicator matrix selects and [b_raw] the same product on the background
    matrix. *)
Theorem Z0_I_bayes (I : mask) (theta_m theta_b : matrix) (lam : Qc) :
  same_shape I theta_m -> same_shape I theta_b ->
  likelihood I theta_m * lam + likelihood I theta_b * (1 - lam) <> 0 ->
  pI_motif I theta_m = Ok (likelihood I theta_m) /\
  pI_background I theta_b = Ok (likelihood I theta_b) /\
  Z0_I I theta_m theta_b lam =
    Ok (likelihood I theta_m * lam /
        (likelihood I theta_m * lam + likelihood I theta_b * (1 - lam))).
Proof.
  intros Sm Sb D. repeat split.
  - now apply pI_motif_likelihood.
  - now apply pI_background_likelihood.
  - rewrite Z0_I_unfold by assumption. now apply fdiv_ok.
Qed.

(** C9, as the program has it.  In exact arithmetic, with likelihoods
    [a_raw > 0] and [b_raw > 0], for every mixture weight in [0,1] the
    quotient [a/(a+b)] of [Z0_I] is defined and lies in [0,1], and it
    increases with the mixture weight.  The doubles the program computes
    follow this up to rounding and underflow only, as the run on doubles
    further down shows. *)
Theorem Z0_I_range_monotone (I : mask) (theta_m theta_b : matrix) (a b : Qc) :
  pI_motif I theta_m = Ok a -> pI_background I theta_b = Ok b ->
  0 < a -> 0 < b ->
  (forall lam, 0 <= lam -> lam <= 1 ->
     exists z, Z0_I I theta_m theta_b lam = Ok z /\ 0 <= z /\ z <= 1) /\
  (forall lam1 lam2, 0 <= lam1 -> lam1 <= lam2 -> lam2 <= 1 ->
     exists z1 z2,
       Z0_I I theta_m theta_b lam1 = Ok z1 /\
       Z0_I I theta_m theta_b lam2 = Ok z2 /\
       z1 <= z2 /\ (lam1 < lam2 -> z1 < z2)).
Proof.
  intros Pa Pb Ha Hb.
  assert (Z : forall lam, 0 <= lam -> lam <= 1 ->
            Z0_I I theta_m theta_b lam = Ok (a * lam / (a * lam + b * (1 - lam)))).
  { intros lam H0 H1. unfold Z0_I. rewrite Pa, Pb. simpl.
    apply fdiv_ok, Qc_pos_neq, Qc_denominator_pos; assumption. }
  split.
  - intros lam H0 H1. eexists. split; [apply Z; assumption|].
    qc2q. now apply bayes_fraction_bounds.
  - intros lam1 lam2 H0 H12 H1.
    assert (H1' : lam1 <= 1) by (eapply Qcle_trans; eauto).
    assert (H0' : 0 <= lam2) by (eapply Qcle_trans; eauto).
    exists (a * lam1 / (a * lam1 + b * (1 - lam1))),
           (a * lam2 / (a * lam2 + b * (1 - lam2))).
    repeat split; try (apply Z; assumption).
    + qc2q. now apply bayes_fraction_mono.
    + intros S. qc2q. now apply bayes_fraction_strict.
Qed.

(** C6, as the program has it.  When the two weighted likelihoods add up to
    zero, in particular when both likelihoods are zero, [Z0_I] substitutes
    nothing: it divides by zero, the outcome is no number, and the update of
    the online estimator that asked for it has no number either. *)
Theorem Z0_I_degenerate_not_finite (I : mask) (theta_m theta_b : matrix)
    (lam a b : Qc) :
  pI_motif I theta_m = Ok a -> pI_background I theta_b = Ok b ->
  a * lam + b * (1 - lam) = 0 ->
  Z0_I I theta_m theta_b lam = NotFinite /\
  (forall z, Z0_I I theta_m theta_b lam <> Ok z) /\
  (forall W st y,
     sequenceToI y = I -> theta_motif st = theta_m ->
     theta_background_matrix st = theta_b -> lambda_motif st = lam ->
     online_step W st y = NotFinite).
Proof.
  intros Pa Pb D.
  assert (E : Z0_I I theta_m theta_b lam = NotFinite).
  { unfold Z0_I. rewrite Pa, Pb. simpl. rewrite D. apply fdiv_zero. }
  repeat split.
  - exact E.
  - intros z. rewrite E. discriminate.
  - intros W st y <- <- <- <-. unfold online_step. rewrite E. reflexivity.
Qed.

(** ** The sequence encoder *)

Lemma letter_index_outside (l : ascii) :
  ~ In l nucleotides <-> letter_index l = None.
Proof.
  unfold letter_index, nucleotides. split.
  - intros H.
    destruct (Ascii.eqb_spec l "A"); [subst; exfalso; apply H; simpl; tauto|].
    destruct (Ascii.eqb_spec l "C"); [subst; exfalso; apply H; simpl; tauto|].
    destruct (Ascii.eqb_spec l "G"); [subst; exfalso; apply H; simpl; tauto|].
    destruct (Ascii.eqb_spec l "T"); [subst; exfalso; apply H; simpl; tauto|].
    reflexivity.
  - intros H [E|[E|[E|[E|[]]]]]; subst l; discriminate.
Qed.

Lemma indicator_row_outside (l : ascii) :
  letter_index l = None ->
  map (Ascii.eqb l) nucleotides = [false; false; false; false].
Proof.
  unfold letter_index, nucleotides. simpl.
  destruct (Ascii.eqb l "A"); [discriminate|].
  destruct (Ascii.eqb l "C"); [discriminate|].
  destruct (Ascii.eqb l "G"); [discriminate|].
  destruct (Ascii.eqb l "T"); [discriminate|]. reflexivity.
Qed.

(** What the mask of one symbol picks in a row of four probabilities. *)
Lemma select_row_letter (l : ascii) (row : vector) :
  length row = 4%nat ->
  select_row (map (Ascii.eqb l) nucleotides) row =
  Ok (match letter_index l with Some k => [nth k row 0] | None => [] end).
Proof.
  destruct row as [|pa [|pc [|pg [|pt [|? ?]]]]]; try discriminate. intros _.
  unfold letter_index, nucleotides.
  destruct (Ascii.eqb_spec l "A"); [subst; reflexivity|].
  destruct (Ascii.eqb_spec l "C"); [subst; reflexivity|].
  destruct (Ascii.eqb_spec l "G"); [subst; reflexivity|].
  destruct (Ascii.eqb_spec l "T"); [subst; reflexivity|].
  simpl.
  destruct (Ascii.eqb_spec l "A"); [contradiction|].
  destruct (Ascii.eqb_spec l "C"); [contradiction|].
  destruct (Ascii.eqb_spec l "G"); [contradiction|].
  destruct (Ascii.eqb_spec l "T"); [contradiction|]. reflexivity.
Qed.

Lemma select_letters (X : list ascii) (theta : matrix) :
  Forall (fun r : vector => length r = 4%nat) theta ->
  length theta = length X ->
  select (map (fun l => map (Ascii.eqb l) nucleotides) X) theta =
  Ok (observed theta X).
Proof.
  revert theta. induction X as [|l X IH]; intros [|row theta] F L;
    try discriminate; [reflexivity|].
  inversion F as [|? ? Hr F']; subst. simpl in L. injection L as L.
  cbn [map select]. rewrite (select_row_letter l row Hr). cbn [bind].
  rewrite (IH theta F' L). reflexivity.
Qed.

Lemma length_list_ascii_of_string (X : string) :
  length (list_ascii_of_string X) = String.length X.
Proof. induction X; simpl; congruence. Qed.

Lemma select_sequence (X : string) (theta : matrix) :
  Forall (fun r : vector => length r = 4%nat) theta ->
  length theta = String.length X ->
  select (sequenceToI X) theta = Ok (observed theta (list_ascii_of_string X)).
Proof.
  intros F L. apply select_letters; [exact F|].
  now rewrite length_list_ascii_of_string.
Qed.

(** C7, as the program has it.  A symbol outside A, C, G, T gives a row of
    the indicator matrix without a true entry; such a row selects nothing,
    so the position is left out of the products: the motif and background
    likelihoods are the products of the probabilities of the recognised
    letters only. *)
Theorem unrecognized_symbol_skipped (X : string) (theta_m theta_b : matrix) :
  Forall (fun r : vector => length r = 4%nat) theta_m ->
  Forall (fun r : vector => length r = 4%nat) theta_b ->
  length theta_m = String.length X -> length theta_b = String.length X ->
  (forall i l, nth_error (list_ascii_of_string X) i = Some l ->
               ~ In l nucleotides ->
               nth_error (sequenceToI X) i = Some [false; false; false; false] /\
               letter_index l = None) /\
  pI_motif (sequenceToI X) theta_m =
    Ok (vprod (observed theta_m (list_ascii_of_string X))) /\
  pI_background (sequenceToI X) theta_b =
    Ok (vprod (observed theta_b (list_ascii_of_string X))).
Proof.
  intros Fm Fb Lm Lb. repeat split.
  - unfold sequenceToI. rewrite nth_error_map, H. cbn [option_map].
    f_equal. now apply indicator_row_outside, letter_index_outside.
  - now apply letter_index_outside.
  - unfold pI_motif. now rewrite select_sequence.
  - unfold pI_background. now rewrite select_sequence.
Qed.

(** ** The online update *)

Lemma step_blend (s ds : Qc) : s + step * (ds - s) = blend s ds.
Proof. unfold step, blend. apply Qc_is_canon. qc2q. ring. Qed.

Lemma vupdate_blend (s ds : vector) :
  vadd s (map (Qcmult step) (map2 Qcminus ds s)) = map2 blend s ds.
Proof.
  revert ds. induction s as [|x s IH]; intros [|d ds]; try reflexivity.
  unfold vadd in *. cbn [map2 map]. rewrite IH, step_blend. reflexivity.
Qed.

Lemma mupdate_blend (s ds : matrix) :
  madd s (mscale step (msub ds s)) = mblend s ds.
Proof.
  revert ds. induction s as [|r s IH]; intros [|d ds]; try reflexivity.
  unfold madd, mscale, msub, mblend in *. cbn [map2 map].
  rewrite IH, vupdate_blend. reflexivity.
Qed.

Lemma online_step_inv (W : nat) (st st' : em_state) (y : string) :
  online_step W st y = Ok st' ->
  exists Z tb,
    Z0_I (sequenceToI y) (theta_motif st) (theta_background_matrix st)
         (lambda_motif st) = Ok Z /\
    rebuild_background W
      (madd (s2_2 st) (mscale step (msub (mask_scale (1 - Z) (sequenceToI y)) (s2_2 st))))
      = Ok tb /\
    st' = {| s1_1 := s1_1 st + step * (Z - s1_1 st);
             s1_2 := madd (s1_2 st) (mscale step (msub (mask_scale Z (sequenceToI y)) (s1_2 st)));
             s2_2 := madd (s2_2 st) (mscale step (msub (mask_scale (1 - Z) (sequenceToI y)) (s2_2 st)));
             n := S (n st);
             lambda_motif := s1_1 st + step * (Z - s1_1 st);
             theta_motif := madd (s1_2 st) (mscale step (msub (mask_scale Z (sequenceToI y)) (s1_2 st)));
             theta_background_matrix := tb |}.
Proof.
  unfold online_step. intros H.
  apply bind_ok in H as (Z & EZ & H). apply bind_ok in H as (tb & Eb & H).
  injection H as <-. now exists Z, tb.
Qed.

Lemma invariant_init (W : nat) (tm tb : matrix) (lam : Qc) :
  loop_invariant W true (online_init tm tb lam).
Proof. now constructor. Qed.

Lemma invariant_step (W : nat) (st st' : em_state) (y : string) :
  online_step W st y = Ok st' -> loop_invariant W false st'.
Proof.
  intros H. apply online_step_inv in H as (Z & tb & _ & Eb & ->).
  now constructor.
Qed.

Lemma online_loop_app (W : nat) (st : em_state) (Y Y' : list string) :
  online_loop W st (Y ++ Y') = (st' <- online_loop W st Y ;; online_loop W st' Y').
Proof.
  revert st. induction Y as [|y Y IH]; intros st; [reflexivity|].
  simpl. destruct (online_step W st y); simpl; auto.
Qed.

Lemma invariant_loop (W : nat) (tm tb : matrix) (lam : Qc) (Y : list string)
    (st : em_state) :
  online_loop W (online_init tm tb lam) Y = Ok st ->
  loop_invariant W (is_nil Y) st.
Proof.
  induction Y as [|y Y0 _] using rev_ind.
  - simpl. intros H. injection H as <-. apply invariant_init.
  - rewrite online_loop_app. intros H. apply bind_ok in H as (st0 & _ & H).
    simpl in H. apply bind_ok in H as (st1 & H & E). injection E as <-.
    replace (is_nil (Y0 ++ [y])) with false by now destruct Y0.
    eapply invariant_step; eauto.
Qed.

(** C1, as the program has it.  One iteration on a sequence with indicator
    matrix [I] computes the responsibility [Z] from the current [s1_1] as
    mixture weight, the current [s1_2] as motif matrix and the current
    background matrix, which is [s2_2] itself only before the first update
    and the background rebuilt from [s2_2] afterwards; it forms [Z],
    [Z*I] and [(1-Z)*I] and replaces each accumulator [s] by
    [s + step*(ds - s)] with the one step [17/20], that is by
    [3/20 * s + 17/20 * ds]. *)
Theorem online_step_estimates (tm0 tb0 : matrix) (lam0 : Qc) (Y : list string)
    (st st' : em_state) (y : string) :
  online_loop (length tm0) (online_init tm0 tb0 lam0) Y = Ok st ->
  online_step (length tm0) st y = Ok st' ->
  exists Z,
    Z0_I (sequenceToI y) (s1_2 st) (theta_background_matrix st) (s1_1 st) = Ok Z /\
    (if is_nil Y then theta_background_matrix st = s2_2 st
     else rebuild_background (length tm0) (s2_2 st) = Ok (theta_background_matrix st)) /\
    s1_1 st' = s1_1 st + step * (Z - s1_1 st) /\
    s1_2 st' = madd (s1_2 st) (mscale step (msub (mask_scale Z (sequenceToI y)) (s1_2 st))) /\
    s2_2 st' = madd (s2_2 st) (mscale step (msub (mask_scale (1 - Z) (sequenceToI y)) (s2_2 st))) /\
    step = Q2Qc (17 # 20) /\
    s1_1 st' = blend (s1_1 st) Z /\
    s1_2 st' = mblend (s1_2 st) (mask_scale Z (sequenceToI y)) /\
    s2_2 st' = mblend (s2_2 st) (mask_scale (1 - Z) (sequenceToI y)).
Proof.
  intros Hloop Hstep.
  destruct (invariant_loop _ _ _ _ _ _ Hloop) as [Il Im Ib].
  apply online_step_inv in Hstep as (Z & tb & EZ & _ & ->).
  exists Z. rewrite <- Il, <- Im. cbn [s1_1 s1_2 s2_2].
  rewrite <- !mupdate_blend, <- step_blend. repeat split; auto.
Qed.

Lemma vsum_map_div (v : vector) (s : Qc) :
  s <> 0 -> vsum (map (fun x => x / s) v) = vsum v / s.
Proof.
  intros H. induction v as [|x v IH]; simpl.
  - field. exact H.
  - rewrite IH. field. exact H.
Qed.


Lemma normalized_sum (v : vector) :
  vsum v <> 0 -> vsum (map (fun x => x / vsum v) v) = 1.
Proof. intros H. rewrite vsum_map_div by exact H. field. exact H. Qed.


(** C5.  On an empty collection [Online_EM] updates nothing and returns the
    initial guess. *)
Theorem Online_EM_empty (theta_motif0 theta_background_matrix0 : matrix)
    (lambda_motif0 : Qc) :
  Online_EM [] theta_motif0 theta_background_matrix0 lambda_motif0 =
  Ok (theta_motif0, theta_background_matrix0, lambda_motif0).
Proof. reflexivity. Qed.

(** ** The batch M-step *)

Lemma vinv_nonzero (v : vector) :
  Forall (fun x => x <> 0) v -> vinv v = Ok (map (fun x => 1 / x) v).
Proof.
  induction 1 as [|x v Hx _ IH]; [reflexivity|].
  simpl. rewrite (fdiv_ok 1 x Hx), IH. reflexivity.
Qed.

Lemma vadd_zeros_r (v : vector) : vadd v (repeat 0 (length v)) = v.
Proof.
  unfold vadd. induction v as [|x v IH]; [reflexivity|].
  simpl. rewrite IH. f_equal. ring.
Qed.

Lemma vadd_scale_zero_l (r v : vector) :
  length r = length v -> vadd (vscale 0 r) v = v.
Proof.
  unfold vadd, vscale. revert v.
  induction r as [|x r IH]; intros [|z v] L; try discriminate; [reflexivity|].
  simpl. rewrite IH by (simpl in L; congruence). f_equal. ring.
Qed.

Section Product_with_a_diagonal.

Variable width : nat.

Lemma lincomb_length (a : vector) (m : matrix) :
  rectangular width m -> length (lincomb width a m) = width.
Proof.
  intros R. revert a. induction R as [|r m Hr _ IH]; intros [|x a]; simpl;
    try apply repeat_length.
  unfold vadd, vscale. generalize (IH a). generalize (lincomb width a m).
  clear IH. revert Hr. generalize width.
  induction r as [|z r IHr]; intros w Hr [|u v] Hv; simpl in *; try congruence.
  destruct w; [discriminate|]. f_equal. apply IHr; congruence.
Qed.

Lemma lincomb_zeros (k : list Qc) (m : matrix) :
  rectangular width m -> lincomb width (map (fun _ => 0) k) m = repeat 0 width.
Proof.
  intros R. revert k. induction R as [|r m Hr _ IH]; intros [|x k]; simpl;
    try reflexivity.
  rewrite IH. apply vadd_scale_zero_l. now rewrite repeat_length.
Qed.

Lemma lincomb_cons_zero (a r : vector) (m : matrix) :
  length r = width -> rectangular width m ->
  lincomb width (0 :: a) (r :: m) = lincomb width a m.
Proof.
  intros Hr R. simpl. apply vadd_scale_zero_l.
  now rewrite lincomb_length.
Qed.

(** The product of [diag d] with a matrix scales row [i] by [d_i]. *)
Lemma dot_diag (d : vector) (m : matrix) :
  length d = length m -> rectangular width m ->
  dot width (diag d) m = map2 vscale d m.
Proof.
  revert m. induction d as [|x d IH]; intros [|r m] L R; try discriminate;
    [reflexivity|].
  apply Forall_cons_iff in R as [Hr R']. simpl in L. injection L as L.
  unfold dot in *. cbn [diag map map2]. f_equal.
  - cbn [lincomb]. rewrite lincomb_zeros by exact R'.
    rewrite <- Hr at 1. replace (length r) with (length (vscale x r)).
    + apply vadd_zeros_r.
    + apply length_map.
  - rewrite map_map. rewrite <- (IH m L R').
    apply map_ext. intros a. now apply lincomb_cons_zero.
Qed.

End Product_with_a_diagonal.

Lemma vscale_inverse (r : vector) (s : Qc) :
  vscale (1 / s) r = map (fun x => x / s) r.
Proof. unfold vscale. apply map_ext. intros x. unfold Qcdiv. ring. Qed.

Lemma map2_scale_rowsums (m : matrix) :
  map2 vscale (map (fun x => 1 / x) (map vsum m)) m = map normalize_row m.
Proof.
  induction m as [|r m IH]; [reflexivity|].
  simpl. rewrite IH. f_equal. apply vscale_inverse.
Qed.

Lemma concatenate_ok (c0 : vector) (c : matrix) :
  Forall (fun r : vector => length r = length c0) c ->
  concatenate c0 c = Ok (c0 :: c).
Proof.
  intros F. unfold concatenate.
  replace (forallb _ c) with true; [reflexivity|].
  symmetry. apply forallb_forall. intros r Hr.
  apply Nat.eqb_eq. rewrite Forall_forall in F. now apply F.
Qed.

Lemma Z_total_over_n_ok (Zs : list (list Qc)) (n : BinInt.Z) :
  n <> 0%Z ->
  Z_total_over_n Zs n = Ok (vsum (concat Zs) / Q2Qc (inject_Z n)).
Proof.
  intros Hn. unfold Z_total_over_n.
  destruct (concat Zs) as [|z zs] eqn:E.
  - apply Z.eqb_neq in Hn. rewrite Hn. f_equal. simpl. unfold Qcdiv. ring.
  - apply fdiv_ok. intros H. apply Hn.
    assert (E0 : (inject_Z n == 0)%Q) by (rewrite <- this_Q2Qc, H; reflexivity).
    unfold Qeq in E0. simpl in E0. lia.
Qed.

(** C8.  The batch M-step returns as mixture weight the sum of all the [Z]
    values divided by [n]; it stacks [c0] above [c], divides every row of
    the stack by its own sum, and returns the rows after the first as the
    motif matrix and the first row, once per row of [c], as the background
    matrix. *)
Theorem M_normalizes (Zs : list (list Qc)) (n : BinInt.Z) (c0 : vector)
    (c : matrix) :
  n <> 0%Z ->
  Forall (fun r : vector => length r = length c0) c ->
  Forall (fun r : vector => vsum r <> 0) (c0 :: c) ->
  let f := map normalize_row (c0 :: c) in
  M Zs n c0 c =
    Ok (vsum (concat Zs) / Q2Qc (inject_Z n), tl f, repeat (hd [] f) (length c)) /\
  tl f = map normalize_row c /\
  hd [] f = normalize_row c0 /\
  Forall (fun r => vsum r = 1) f.
Proof.
  intros Hn Hc Hs f. repeat split.
  - unfold M. rewrite (Z_total_over_n_ok Zs n Hn). cbn [bind].
    rewrite (concatenate_ok c0 c Hc). cbn [bind].
    rewrite vinv_nonzero by (rewrite Forall_map; exact Hs). cbn [bind].
    rewrite dot_diag.
    + rewrite map2_scale_rowsums. subst f. cbn [map tl hd].
      now rewrite length_map.
    + now rewrite !length_map.
    + constructor; [reflexivity|exact Hc].
  - subst f. rewrite Forall_map. revert Hs. apply Forall_impl.
    intros r Hr. now apply normalized_sum.
Qed.

(** ** Shapes along the loop *)

Lemma same_shape_shape_of (I : mask) (theta : matrix) :
  same_shape I theta <-> shape_of I = shape_of theta.
Proof.
  split.
  - induction 1 as [|Ir tr I theta L _ IH]; simpl; congruence.
  - revert theta. induction I as [|Ir I IH]; intros [|tr theta] H;
      try discriminate; constructor.
    + simpl in H. congruence.
    + apply IH. simpl in H. congruence.
Qed.

Lemma map2_length {A B C : Type} (f : A -> B -> C) (l : list A) (l' : list B) :
  length l = length l' -> length (map2 f l l') = length l'.
Proof.
  revert l'. induction l as [|a l IH]; intros [|b l'] L; try discriminate;
    [reflexivity|].
  simpl. f_equal. apply IH. simpl in L. congruence.
Qed.

Lemma mblend_shape (s : matrix) (z : Qc) (I : mask) :
  same_shape I s -> shape_of (mblend s (mask_scale z I)) = shape_of I.
Proof.
  induction 1 as [|Ir tr I s L _ IH]; [reflexivity|].
  unfold mblend, mask_scale, shape_of in *. cbn [map map2]. f_equal.
  - rewrite map2_length; rewrite length_map; congruence.
  - exact IH.
Qed.

Lemma Z0_I_shapes (I : mask) (tm tb : matrix) (lam z : Qc) :
  Z0_I I tm tb lam = Ok z -> same_shape I tm /\ same_shape I tb.
Proof.
  unfold Z0_I. intros H.
  apply bind_ok in H as (pm & Em & H). apply bind_ok in H as (pb & Eb & _).
  split; [now apply pI_motif_inv in Em|now apply pI_background_inv in Eb].
Qed.

Lemma shape_invariant_step (W : nat) (first : bool) (st st' : em_state) (y : string) :
  shape_invariant first st -> online_step W st y = Ok st' ->
  same_shape (sequenceToI y) (s1_2 st) /\
  same_shape (sequenceToI y) (s2_2 st) /\
  shape_of (s1_2 st') = shape_of (sequenceToI y) /\
  shape_of (s2_2 st') = shape_of (sequenceToI y) /\
  shape_invariant false st'.
Proof.
  intros (Im & Ib) H. apply online_step_inv in H as (Z & tb & EZ & _ & ->).
  apply Z0_I_shapes in EZ as (Sm & Sb). rewrite Im in Sm.
  assert (Sb' : same_shape (sequenceToI y) (s2_2 st)).
  { destruct first.
    - now rewrite <- Ib.
    - apply same_shape_shape_of. rewrite Ib. now apply same_shape_shape_of. }
  unfold shape_invariant. cbn [s1_2 s2_2 theta_motif].
  rewrite !mupdate_blend.
  rewrite (mblend_shape _ _ _ Sm), (mblend_shape _ _ _ Sb').
  repeat split; auto.
Qed.

Lemma shape_invariant_loop (W : nat) (first : bool) (st st' : em_state)
    (Y : list string) :
  shape_invariant first st -> online_loop W st Y = Ok st' ->
  shape_invariant (first && is_nil Y) st'.
Proof.
  revert first st. induction Y as [|y Y IH]; intros first st Inv H.
  - simpl in H. injection H as <-. now rewrite andb_true_r.
  - simpl in H. apply bind_ok in H as (st1 & E & H).
    destruct (shape_invariant_step W first st st1 y Inv E) as (_ & _ & _ & _ & Inv1).
    specialize (IH false st1 Inv1 H). simpl in IH.
    now rewrite andb_false_r.
Qed.


(** The likelihood of an encoded sequence is the product of the
    probabilities of its letters, one per position. *)
Lemma likelihood_sequence (X : string) (theta : matrix) :
  Forall (fun r : vector => length r = 4%nat) theta ->
  length theta = String.length X ->
  likelihood (sequenceToI X) theta = vprod (observed theta (list_ascii_of_string X)).
Proof.
  intros F L. pose proof (select_sequence X theta F L) as E.
  destruct (select_spec (sequenceToI X) theta) as (ps & E' & P).
  - eapply select_shape; eauto.
  - rewrite E in E'. injection E' as <-. now rewrite P.
Qed.

(** ** Row sums and ranges along the loop *)

Lemma Qc_mult_nonneg (x y : Qc) : 0 <= x -> 0 <= y -> 0 <= x * y.
Proof. intros. qc2q. nra. Qed.

Lemma Qc_plus_nonneg (x y : Qc) : 0 <= x -> 0 <= y -> 0 <= x + y.
Proof. intros. qc2q. lra. Qed.

Lemma Qc_one_nonneg : 0 <= 1.
Proof. discriminate. Qed.





Lemma vsum_nonneg (v : vector) : Forall (fun x => 0 <= x) v -> 0 <= vsum v.
Proof.
  induction 1 as [|x v Hx _ IH]; simpl;
    [apply Qcle_refl|now apply Qc_plus_nonneg].
Qed.














(** The sum of an updated row: the old sum and the number of true entries of
    the indicator row, weighted. *)
Lemma blend_row_sum (r : vector) (z : Qc) (Ir : list bool) :
  length Ir = length r ->
  vsum (map2 blend r (map (fun b => z * of_bool b) Ir)) =
  Q2Qc (3 # 20) * vsum r + Q2Qc (17 # 20) * (z * vsum (map of_bool Ir)).
Proof.
  revert Ir. induction r as [|x r IH]; intros [|b Ir] L; try discriminate.
  - simpl. ring.
  - simpl in L. injection L as L. simpl. rewrite (IH Ir L).
    unfold blend. ring.
Qed.

Lemma indicator_row_one_hot (l : ascii) :
  In l nucleotides -> vsum (map of_bool (map (Ascii.eqb l) nucleotides)) = 1.
Proof.
  intros [E|[E|[E|[E|[]]]]]; subst l; by_evaluation.
Qed.

(** The motif rows after an update on a sequence of nucleotides: from rows
    that sum to 1 they sum to [3/20 + 17/20 * Z], which is 1 only for
    [Z = 1]. *)
Lemma motif_row_sums_after_step (W : nat) (st st' : em_state) (y : string) :
  Forall (fun l => In l nucleotides) (list_ascii_of_string y) ->
  theta_motif st = s1_2 st ->
  Forall (fun r => vsum r = 1) (s1_2 st) ->
  online_step W st y = Ok st' ->
  exists Z,
    Z0_I (sequenceToI y) (theta_motif st) (theta_background_matrix st)
         (lambda_motif st) = Ok Z /\
    Forall (fun r => vsum r = Q2Qc (3 # 20) + Q2Qc (17 # 20) * Z) (theta_motif st') /\
    (Q2Qc (3 # 20) + Q2Qc (17 # 20) * Z = 1 <-> Z = 1).
Proof.
  intros Hy Em Hs H. apply online_step_inv in H as (Z & tb & EZ & _ & ->).
  exists Z. split; [exact EZ|]. split.
  - cbn [theta_motif]. rewrite mupdate_blend.
    destruct (Z0_I_shapes _ _ _ _ _ EZ) as (Sm & _). rewrite Em in Sm.
    clear EZ. unfold sequenceToI in *. revert Sm Hs. generalize (s1_2 st).
    induction Hy as [|l X Hl _ IH]; intros s Sm Hs.
    + inversion Sm; subst. constructor.
    + inversion Sm as [|? r ? s' L Sm' E1 E2]; subst.
      inversion Hs as [|? ? Hr Hs']; subst.
      unfold mblend, mask_scale in *. cbn [map map2]. constructor.
      * rewrite blend_row_sum by exact L.
        rewrite Hr, (indicator_row_one_hot l Hl). ring.
      * now apply IH.
  - split; intros E.
    + assert (E' : (this (Q2Qc (3 # 20) + Q2Qc (17 # 20) * Z) == this 1)%Q)
        by (rewrite E; reflexivity).
      apply Qc_is_canon. qc2q. lra.
    + subst Z. by_evaluation.
Qed.

(** ** Runs on concrete inputs *)


Lemma state1_to_state2 : online_step 1 state1 "A" = Ok state2.
Proof. by_evaluation. Qed.

Lemma loop_to_state1 : online_loop 1 state0 ["A"%string] = Ok state1.
Proof. by_evaluation. Qed.

Lemma Z0_I_bayes_witness :
  Z0_I (sequenceToI "ACGT") motif_ACGT (repeat uniform_row 4) half
  = Ok (Q2Qc (256 # 257)).
Proof.
  destruct (Z0_I_bayes (sequenceToI "ACGT") motif_ACGT (repeat uniform_row 4) half)
    as (_ & _ & E).
  - repeat constructor.
  - repeat constructor.
  - apply Qc_neq_of_bool. vm_compute. reflexivity.
  - rewrite E. by_evaluation.
Defined.

Lemma Z0_I_range_monotone_witness :
  (exists z, Z0_I (sequenceToI "ACGT") (repeat uniform_row 4)
               (repeat uniform_row 4) quarter = Ok z /\ 0 <= z /\ z <= 1) /\
  (exists z1 z2,
     Z0_I (sequenceToI "ACGT") (repeat uniform_row 4) (repeat uniform_row 4) quarter = Ok z1 /\
     Z0_I (sequenceToI "ACGT") (repeat uniform_row 4) (repeat uniform_row 4) half = Ok z2 /\
     z1 <= z2 /\ (quarter < half -> z1 < z2)).
Proof.
  destruct (Z0_I_range_monotone (sequenceToI "ACGT") (repeat uniform_row 4)
              (repeat uniform_row 4) (Q2Qc (1 # 256)) (Q2Qc (1 # 256)))
    as (R & Mo).
  - by_evaluation.
  - by_evaluation.
  - reflexivity.
  - reflexivity.
  - split.
    + apply R; vm_compute; discriminate.
    + apply Mo; vm_compute; discriminate.
Defined.

(** C9 as it is stated fails on the doubles the program computes.  With
    likelihoods 1 and 2^-8 and two neighbouring weights in [0,1], the
    larger weight gets the smaller responsibility; and with both
    likelihoods the least positive double and weight one half, both
    weighted likelihoods round to zero and the responsibility is nan, not
    a number of [0,1]. *)
Lemma Z0_I_double_not_monotone :
  let tm := [[1; 0; 0; 0]]%float in
  let tb := [[0x1p-8; 0x1p-2; 0x1p-2; 0x1p-2]]%float in
  let lam1 := 0x1.ef2a4f7c7db80p-4%float in
  let lam2 := 0x1.ef2a4f7c7db81p-4%float in
  let tiny := [[0x1p-1074; 0; 0; 0]]%float in
  pI_motif_double (sequenceToI "A") tm = Ok 1%float /\
  pI_background_double (sequenceToI "A") tb = Ok 0x1p-8%float /\
  PrimFloat.ltb 0 lam1 = true /\ PrimFloat.ltb lam1 lam2 = true /\
  PrimFloat.ltb lam2 1 = true /\
  Z0_I_double (sequenceToI "A") tm tb lam1 = Ok 0x1.f1db95e9742bcp-1%float /\
  Z0_I_double (sequenceToI "A") tm tb lam2 = Ok 0x1.f1db95e9742bbp-1%float /\
  PrimFloat.ltb 0x1.f1db95e9742bbp-1 0x1.f1db95e9742bcp-1 = true /\
  pI_motif_double (sequenceToI "A") tiny = Ok 0x1p-1074%float /\
  PrimFloat.ltb 0 0x1p-1074 = true /\
  (exists z, Z0_I_double (sequenceToI "A") tiny tiny 0x1p-1%float = Ok z /\
             PrimFloat.is_nan z = true /\
             PrimFloat.leb 0 z = false /\ PrimFloat.leb z 1 = false).
Proof.
  cbv zeta. repeat split; try (vm_compute; reflexivity).
  eexists. repeat split; vm_compute; reflexivity.
Qed.

Lemma Z0_I_degenerate_not_finite_witness :
  Z0_I (sequenceToI "A") motif_not_A background_not_A half = NotFinite /\
  online_step 1 (online_init motif_not_A background_not_A half) "A" = NotFinite.
Proof.
  destruct (Z0_I_degenerate_not_finite (sequenceToI "A") motif_not_A
              background_not_A half 0 0) as (E & _ & P).
  - by_evaluation.
  - by_evaluation.
  - by_evaluation.
  - split; [exact E|]. now apply P.
Defined.

(** C6 as it is stated fails: with both likelihoods zero [Z0_I] has no
    value at all, so no fallback value either. *)
Lemma Z0_I_no_fallback :
  pI_motif (sequenceToI "A") motif_not_A = Ok 0 /\
  pI_background (sequenceToI "A") background_not_A = Ok 0 /\
  Z0_I (sequenceToI "A") motif_not_A background_not_A half = NotFinite /\
  ~ (exists z, Z0_I (sequenceToI "A") motif_not_A background_not_A half = Ok z).
Proof.
  repeat split; try by_evaluation.
  intros (z & H). vm_compute in H. discriminate.
Qed.

Lemma unrecognized_symbol_skipped_witness :
  nth_error (sequenceToI "AN") 1 = Some [false; false; false; false] /\
  pI_motif (sequenceToI "AN") [uniform_row; uniform_row] = Ok quarter /\
  pI_background (sequenceToI "AN") [uniform_row; uniform_row] = Ok quarter.
Proof.
  destruct (unrecognized_symbol_skipped "AN" [uniform_row; uniform_row]
              [uniform_row; uniform_row]) as (R & Em & Eb).
  - repeat constructor.
  - repeat constructor.
  - reflexivity.
  - reflexivity.
  - split; [|split].
    + apply (R 1%nat "N"%char); [reflexivity|].
      intros [E|[E|[E|[E|[]]]]]; discriminate.
    + rewrite Em. by_evaluation.
    + rewrite Eb. by_evaluation.
Defined.

(** C7 as it is stated fails: the sequence AN has a symbol outside the
    alphabet, its second row has no true entry, and both likelihoods are
    one quarter, the probability of its first letter, not zero. *)
Lemma unrecognized_symbol_likelihood_nonzero :
  ~ In "N"%char nucleotides /\
  sequenceToI "AN" = [[true; false; false; false]; [false; false; false; false]] /\
  pI_motif (sequenceToI "AN") [uniform_row; uniform_row] = Ok quarter /\
  pI_background (sequenceToI "AN") [uniform_row; uniform_row] = Ok quarter /\
  pI_motif (sequenceToI "AN") [uniform_row; uniform_row] <> Ok 0 /\
  pI_background (sequenceToI "AN") [uniform_row; uniform_row] <> Ok 0.
Proof.
  repeat split; try by_evaluation.
  - intros [E|[E|[E|[E|[]]]]]; discriminate.
  - intros H. vm_compute in H. discriminate.
  - intros H. vm_compute in H. discriminate.
Qed.

Lemma online_step_estimates_witness :
  exists Z,
    Z0_I (sequenceToI "A") (s1_2 state1) (theta_background_matrix state1)
         (s1_1 state1) = Ok Z /\
    rebuild_background 1 (s2_2 state1) = Ok (theta_background_matrix state1) /\
    s1_1 state2 = blend (s1_1 state1) Z /\
    s1_2 state2 = mblend (s1_2 state1) (mask_scale Z (sequenceToI "A")) /\
    s2_2 state2 = mblend (s2_2 state1) (mask_scale (1 - Z) (sequenceToI "A")).
Proof.
  destruct (online_step_estimates [[1; 0; 0; 0]] [uniform_row] half ["A"%string]
              state1 state2 "A" loop_to_state1 state1_to_state2)
    as (Z & EZ & Eb & _ & _ & _ & _ & E1 & E2 & E3).
  exists Z. repeat split; assumption.
Defined.

(** C1 as it is stated fails at the second sequence: the responsibility the
    program uses there, [4832/6057], comes from the rebuilt background
    matrix; with [s2_2] as the background matrix it would be [604/653], and
    the update of [s1_1] is not the one that value gives. *)
Lemma responsibility_not_from_s2_2 :
  online_loop 1 state0 ["A"%string] = Ok state1 /\
  online_step 1 state1 "A" = Ok state2 /\
  theta_background_matrix state1 <> s2_2 state1 /\
  Z0_I (sequenceToI "A") (s1_2 state1) (s2_2 state1) (s1_1 state1)
    = Ok (Q2Qc (604 # 653)) /\
  Z0_I (sequenceToI "A") (theta_motif state1) (theta_background_matrix state1)
       (lambda_motif state1) = Ok (Q2Qc (4832 # 6057)) /\
  s1_1 state2 <> s1_1 state1 + step * (Q2Qc (604 # 653) - s1_1 state1) /\
  s1_1 state2 = s1_1 state1 + step * (Q2Qc (4832 # 6057) - s1_1 state1).
Proof.
  repeat split.
  - exact loop_to_state1.
  - exact state1_to_state2.
  - intros H. vm_compute in H. discriminate.
  - by_evaluation.
  - by_evaluation.
  - apply Qc_neq_of_bool. vm_compute. reflexivity.
  - by_evaluation.
Qed.


(** C4 at a failing input: from a uniform motif row, a uniform background
    and weight one half, one update on the sequence A returns a motif row
    that sums to [23/40], while the background row sums to 1 and the
    weight stays in [0,1]. *)
Lemma Online_EM_motif_row_not_normalized :
  stochastic_row uniform_row /\
  Online_EM ["A"%string] [uniform_row] [uniform_row] half =
    Ok ([[Q2Qc (37 # 80); Q2Qc (3 # 80); Q2Qc (3 # 80); Q2Qc (3 # 80)]],
        [[Q2Qc (37 # 46); Q2Qc (3 # 46); Q2Qc (3 # 46); Q2Qc (3 # 46)]],
        half) /\
  vsum [Q2Qc (37 # 80); Q2Qc (3 # 80); Q2Qc (3 # 80); Q2Qc (3 # 80)] = Q2Qc (23 # 40) /\
  Q2Qc (23 # 40) <> 1 /\
  vsum [Q2Qc (37 # 46); Q2Qc (3 # 46); Q2Qc (3 # 46); Q2Qc (3 # 46)] = 1.
Proof.
  repeat split; try by_evaluation.
  - repeat constructor; vm_compute; discriminate.
  - intros H. vm_compute in H. discriminate.
Qed.

Lemma M_normalizes_witness :
  M [[half; third]] 2 [1; 1; 1; 1] [[1; 0; half; 0]; [1; 0; 1; 0]] =
  Ok (Q2Qc (5 # 12),
      [[Q2Qc (2 # 3); 0; third; 0]; [half; 0; half; 0]],
      [uniform_row; uniform_row]).
Proof.
  destruct (M_normalizes [[half; third]] 2 [1; 1; 1; 1]
              [[1; 0; half; 0]; [1; 0; 1; 0]]) as (E & _).
  - discriminate.
  - repeat constructor.
  - repeat constructor; apply Qc_neq_of_bool; vm_compute; reflexivity.
  - rewrite E. by_evaluation.
Defined.

(** * Further properties of the program *)

(** ** The encoder *)

Definition count_true (r : list bool) : nat := count_occ bool_dec r true.

Lemma indicator_row_count (l : ascii) :
  count_true (map (Ascii.eqb l) nucleotides) =
  match letter_index l with Some _ => 1%nat | None => 0%nat end.
Proof.
  unfold letter_index, nucleotides.
  destruct (Ascii.eqb_spec l "A"); [subst; reflexivity|].
  destruct (Ascii.eqb_spec l "C"); [subst; reflexivity|].
  destruct (Ascii.eqb_spec l "G"); [subst; reflexivity|].
  destruct (Ascii.eqb_spec l "T"); [subst; reflexivity|].
  unfold count_true. simpl.
  destruct (Ascii.eqb_spec l "A"); [contradiction|].
  destruct (Ascii.eqb_spec l "C"); [contradiction|].
  destruct (Ascii.eqb_spec l "G"); [contradiction|].
  destruct (Ascii.eqb_spec l "T"); [contradiction|]. reflexivity.
Qed.

Lemma sequenceToI_length (X : string) :
  length (sequenceToI X) = String.length X.
Proof. unfold sequenceToI. now rewrite length_map, length_list_ascii_of_string. Qed.


(** X1.  The indicator matrix of a string has one row of four entries per
    symbol; the row of a nucleotide has exactly one true entry, the row of
    any other symbol has none. *)
Theorem sequenceToI_rows (X : string) :
  length (sequenceToI X) = String.length X /\
  Forall (fun r : list bool => length r = 4%nat) (sequenceToI X) /\
  (forall i l, nth_error (list_ascii_of_string X) i = Some l ->
     exists r, nth_error (sequenceToI X) i = Some r /\
               (In l nucleotides -> count_true r = 1%nat) /\
               (~ In l nucleotides -> count_true r = 0%nat)).
Proof.
  unfold sequenceToI. repeat split.
  - now rewrite length_map, length_list_ascii_of_string.
  - apply Forall_map, Forall_forall. reflexivity.
  - intros i l H. rewrite nth_error_map, H. cbn [option_map].
    eexists. split; [reflexivity|].
    rewrite indicator_row_count. split; intros Hl.
    + destruct (letter_index l) eqn:E; [reflexivity|].
      apply letter_index_outside in E. contradiction.
    + apply letter_index_outside in Hl. now rewrite Hl.
Qed.

Lemma indicator_row_injective (l l' : ascii) :
  In l nucleotides ->
  map (Ascii.eqb l) nucleotides = map (Ascii.eqb l') nucleotides -> l = l'.
Proof.
  unfold nucleotides. simpl. intros [E|[E|[E|[E|[]]]]] H; subst l;
    injection H as H1 H2 H3 H4; symmetry.
  - symmetry in H1. now apply Ascii.eqb_eq in H1.
  - symmetry in H2. now apply Ascii.eqb_eq in H2.
  - symmetry in H3. now apply Ascii.eqb_eq in H3.
  - symmetry in H4. now apply Ascii.eqb_eq in H4.
Qed.

Lemma string_of_list_ascii_injective (X Y : string) :
  list_ascii_of_string X = list_ascii_of_string Y -> X = Y.
Proof.
  intros H. rewrite <- (string_of_list_ascii_of_string X).
  rewrite <- (string_of_list_ascii_of_string Y). now rewrite H.
Qed.

(** X2.  On strings of nucleotides the encoding loses nothing: two strings
    with the same indicator matrix are the same string. *)
Theorem sequenceToI_injective (X Y : string) :
  Forall (fun l => In l nucleotides) (list_ascii_of_string X) ->
  sequenceToI X = sequenceToI Y -> X = Y.
Proof.
  intros F H. apply string_of_list_ascii_injective.
  unfold sequenceToI in H. revert H. generalize (list_ascii_of_string Y).
  induction F as [|l X' Hl _ IH]; intros [|l' Y'] H; try discriminate;
    [reflexivity|].
  pose proof (f_equal (hd []) H) as Hr. pose proof (f_equal (@tl _) H) as Ht.
  f_equal; [apply indicator_row_injective; [exact Hl|exact Hr]|apply IH; exact Ht].
Qed.

Lemma sequenceToI_injective_witness : "ACGT"%string = "ACGT"%string.
Proof.
  apply (sequenceToI_injective "ACGT" "ACGT").
  - repeat constructor; simpl; tauto.
  - reflexivity.
Defined.

(** ** The likelihoods *)

Lemma select_row_outcome (Ir : list bool) (tr : vector) :
  (exists ps, select_row Ir tr = Ok ps) \/ select_row Ir tr = Raise IndexError.
Proof.
  revert tr. induction Ir as [|b Ir IH]; intros [|x tr]; simpl; auto.
  - left. now exists [].
  - destruct (IH tr) as [(ps & E)|E]; rewrite E; simpl; eauto.
Qed.

Lemma select_outcome (I : mask) (theta : matrix) :
  (exists ps, select I theta = Ok ps) \/ select I theta = Raise IndexError.
Proof.
  revert theta. induction I as [|Ir I IH]; intros [|tr theta]; simpl; auto.
  - left. now exists [].
  - destruct (select_row_outcome Ir tr) as [(r & E)|E]; rewrite E; simpl; auto.
    destruct (IH theta) as [(rs & E')|E']; rewrite E'; simpl; eauto.
Qed.

Lemma pI_motif_mismatch (I : mask) (theta : matrix) :
  ~ same_shape I theta -> pI_motif I theta = Raise IndexError.
Proof.
  intros N. unfold pI_motif.
  destruct (select_outcome I theta) as [(ps & E)|E].
  - exfalso. apply N. eapply select_shape; eauto.
  - now rewrite E.
Qed.

Lemma same_shape_dec (I : mask) (theta : matrix) :
  same_shape I theta \/ ~ same_shape I theta.
Proof.
  destruct (select_outcome I theta) as [(ps & E)|E].
  - left. eapply select_shape; eauto.
  - right. intros S. destruct (select_spec I theta S) as (ps & E' & _).
    congruence.
Qed.

(** X3.  [pI_motif] and [pI_background] have two outcomes only: the product
    of the selected entries when the mask has the shape of the matrix, and
    [IndexError] when it has not.  They never divide. *)
Theorem pI_outcomes (I : mask) (theta : matrix) :
  pI_background I theta = pI_motif I theta /\
  ((same_shape I theta /\ pI_motif I theta = Ok (likelihood I theta)) \/
   (~ same_shape I theta /\ pI_motif I theta = Raise IndexError)).
Proof.
  split; [reflexivity|].
  destruct (same_shape_dec I theta) as [S|N].
  - left. split; [exact S|]. now apply pI_motif_likelihood.
  - right. split; [exact N|]. now apply pI_motif_mismatch.
Qed.

Lemma Qc_le_one_mult (x y : Qc) :
  0 <= x -> x <= 1 -> 0 <= y -> y <= 1 -> x * y <= 1.
Proof. intros. qc2q. nra. Qed.

Lemma stochastic_row_entries (r : vector) :
  stochastic_row r -> Forall (fun x => 0 <= x /\ x <= 1) r.
Proof.
  intros (F & S). rewrite <- S. clear S.
  induction F as [|x r Hx F IH]; constructor.
  - split; [exact Hx|]. simpl. pose proof (vsum_nonneg r F). qc2q. lra.
  - revert IH. apply Forall_impl. intros y (Hy0 & Hy1). split; [exact Hy0|].
    simpl. qc2q. lra.
Qed.

Lemma vprod_unit (v : vector) :
  Forall (fun x => 0 <= x /\ x <= 1) v -> 0 <= vprod v /\ vprod v <= 1.
Proof.
  induction 1 as [|x v (H0 & H1) _ (IH0 & IH1)]; simpl.
  - split; [apply Qc_one_nonneg|apply Qcle_refl].
  - split; [now apply Qc_mult_nonneg|now apply Qc_le_one_mult].
Qed.

Lemma select_row_entries (P : Qc -> Prop) (Ir : list bool) (tr ps : vector) :
  Forall P tr -> select_row Ir tr = Ok ps -> Forall P ps.
Proof.
  intros F. revert Ir ps. induction F as [|x tr Hx _ IH]; intros [|b Ir] ps;
    simpl; try discriminate.
  - intros E. injection E as <-. constructor.
  - intros H. apply bind_ok in H as (r & E & H). injection H as <-.
    destruct b; [constructor|]; eauto.
Qed.

Lemma select_entries (P : Qc -> Prop) (I : mask) (theta : matrix) (ps : vector) :
  Forall (Forall P) theta -> select I theta = Ok ps -> Forall P ps.
Proof.
  intros F. revert I ps. induction F as [|tr theta Hr _ IH]; intros [|Ir I] ps;
    simpl; try discriminate.
  - intros E. injection E as <-. constructor.
  - intros H. apply bind_ok in H as (r & Er & H).
    apply bind_ok in H as (rs & Es & H). injection H as <-.
    apply Forall_app. split; [eapply select_row_entries|]; eauto.
Qed.

(** X4.  On a matrix whose rows are probability distributions the
    likelihood of any mask that fits is a probability. *)
Theorem pI_motif_probability (I : mask) (theta : matrix) (p : Qc) :
  Forall stochastic_row theta ->
  pI_motif I theta = Ok p -> 0 <= p /\ p <= 1.
Proof.
  intros F H. unfold pI_motif in H. apply bind_ok in H as (ps & E & H).
  injection H as <-. apply vprod_unit.
  eapply select_entries; [|exact E].
  revert F. apply Forall_impl. exact stochastic_row_entries.
Qed.

Lemma uniform_row_stochastic : stochastic_row uniform_row.
Proof. split; [repeat constructor; discriminate|by_evaluation]. Qed.

Lemma pI_motif_probability_witness :
  0 <= Q2Qc (1 # 16) /\ Q2Qc (1 # 16) <= 1.
Proof.
  apply (pI_motif_probability (sequenceToI "AC") [uniform_row; uniform_row]).
  - repeat constructor; try discriminate; by_evaluation.
  - by_evaluation.
Defined.

Lemma select_row_own (Ir : list bool) :
  exists ps, select_row Ir (map of_bool Ir) = Ok ps /\ Forall (fun x => x = 1) ps.
Proof.
  induction Ir as [|b Ir (ps & E & F)]; simpl.
  - exists []. now split.
  - rewrite E. simpl. destruct b; eexists; split; try reflexivity; auto.
Qed.

Lemma vprod_ones (v : vector) : Forall (fun x => x = 1) v -> vprod v = 1.
Proof.
  induction 1 as [|x v -> _ IH]; simpl; [reflexivity|]. rewrite IH. ring.
Qed.

(** X5.  Against the matrix that is its own pattern (1 where the mask is
    true, 0 elsewhere) every mask, and so every encoded sequence, has
    likelihood exactly 1. *)
Theorem pI_motif_own_pattern (I : mask) :
  pI_motif I (map (map of_bool) I) = Ok 1.
Proof.
  unfold pI_motif.
  assert (H : exists ps, select I (map (map of_bool) I) = Ok ps /\
                         Forall (fun x => x = 1) ps).
  { induction I as [|Ir I (rs & Es & Fs)]; simpl.
    - exists []. now split.
    - destruct (select_row_own Ir) as (r & Er & Fr).
      rewrite Er, Es. simpl. eexists. split; [reflexivity|].
      apply Forall_app. now split. }
  destruct H as (ps & E & F). rewrite E. simpl. now rewrite vprod_ones.
Qed.

Lemma select_app (I1 I2 : mask) (t1 t2 : matrix) (p1 p2 : vector) :
  select I1 t1 = Ok p1 -> select I2 t2 = Ok p2 ->
  select (I1 ++ I2) (t1 ++ t2) = Ok (p1 ++ p2).
Proof.
  revert t1 p1. induction I1 as [|Ir I1 IH]; intros [|tr t1] p1 H1 H2;
    simpl in *; try discriminate.
  - injection H1 as <-. exact H2.
  - apply bind_ok in H1 as (r & Er & H1). apply bind_ok in H1 as (rs & Es & H1).
    injection H1 as <-. rewrite Er. simpl. rewrite (IH t1 rs Es H2). simpl.
    now rewrite app_assoc.
Qed.

Lemma list_ascii_of_string_app (X Y : string) :
  list_ascii_of_string (X ++ Y) = list_ascii_of_string X ++ list_ascii_of_string Y.
Proof. induction X as [|c X IH]; simpl; [reflexivity|]. now rewrite IH. Qed.

(** X6.  The likelihood is multiplicative: the encoding of two strings one
    after the other is the two encodings stacked, and its likelihood
    against the stacked matrices is the product of the two likelihoods. *)
Theorem pI_motif_append (X Y : string) (theta1 theta2 : matrix) (p1 p2 : Qc) :
  pI_motif (sequenceToI X) theta1 = Ok p1 ->
  pI_motif (sequenceToI Y) theta2 = Ok p2 ->
  sequenceToI (X ++ Y) = sequenceToI X ++ sequenceToI Y /\
  pI_motif (sequenceToI (X ++ Y)) (theta1 ++ theta2) = Ok (p1 * p2).
Proof.
  intros H1 H2.
  assert (E : sequenceToI (X ++ Y) = sequenceToI X ++ sequenceToI Y).
  { unfold sequenceToI. now rewrite list_ascii_of_string_app, map_app. }
  split; [exact E|]. rewrite E. unfold pI_motif in *.
  apply bind_ok in H1 as (ps1 & E1 & H1). injection H1 as <-.
  apply bind_ok in H2 as (ps2 & E2 & H2). injection H2 as <-.
  rewrite (select_app _ _ _ _ _ _ E1 E2). simpl. now rewrite vprod_app.
Qed.

Lemma pI_motif_append_witness :
  pI_motif (sequenceToI ("A" ++ "C")) ([uniform_row] ++ [uniform_row])
  = Ok (quarter * quarter).
Proof.
  apply (pI_motif_append "A" "C" [uniform_row] [uniform_row] quarter quarter);
    by_evaluation.
Defined.

Lemma vprod_zero (v : vector) : In 0 v -> vprod v = 0.
Proof.
  induction v as [|x v IH]; simpl; [tauto|].
  intros [->|H]; [ring|]. rewrite (IH H). ring.
Qed.

(** X7.  On a matrix of probabilities (entries in [0,1]) the likelihood of
    an encoded sequence is zero as soon as the matrix gives probability
    zero to one of its recognised letters at its position. *)
Theorem pI_motif_zero (X : string) (theta : matrix) :
  Forall (fun r : vector => length r = 4%nat) theta ->
  Forall (Forall (fun x => 0 <= x /\ x <= 1)) theta ->
  length theta = String.length X ->
  In 0 (observed theta (list_ascii_of_string X)) ->
  pI_motif (sequenceToI X) theta = Ok 0.
Proof.
  intros F _ L H. unfold pI_motif. rewrite (select_sequence X theta F L). simpl.
  now rewrite vprod_zero.
Qed.

Lemma pI_motif_zero_witness :
  pI_motif (sequenceToI "A") motif_not_A = Ok 0.
Proof.
  apply (pI_motif_zero "A" motif_not_A).
  - repeat constructor.
  - repeat constructor; discriminate.
  - reflexivity.
  - simpl. now left.
Defined.

(** ** The responsibility, further *)

(** X10.  At the ends of the range of the mixture weight: with weight 0 the
    responsibility is 0 and with weight 1 it is 1, whatever the sequence,
    provided the one component left has a likelihood that is not zero;
    when that likelihood is zero the quotient is [0/0]. *)
Theorem Z0_I_extreme_weights (I : mask) (theta_m theta_b : matrix) :
  same_shape I theta_m -> same_shape I theta_b ->
  (likelihood I theta_b <> 0 -> Z0_I I theta_m theta_b 0 = Ok 0) /\
  (likelihood I theta_m <> 0 -> Z0_I I theta_m theta_b 1 = Ok 1) /\
  (likelihood I theta_b = 0 -> Z0_I I theta_m theta_b 0 = NotFinite) /\
  (likelihood I theta_m = 0 -> Z0_I I theta_m theta_b 1 = NotFinite).
Proof.
  intros Sm Sb. rewrite !Z0_I_unfold by assumption.
  set (a := likelihood I theta_m). set (b := likelihood I theta_b).
  replace (a * 0 + b * (1 - 0)) with b by ring.
  replace (a * 1 + b * (1 - 1)) with a by ring.
  replace (a * 0) with 0 by ring. replace (a * 1) with a by ring.
  repeat split; intros H.
  - rewrite fdiv_ok by exact H. f_equal. field. exact H.
  - rewrite fdiv_ok by exact H. f_equal. field. exact H.
  - rewrite H. apply fdiv_zero.
  - rewrite H. apply fdiv_zero.
Qed.

Lemma Z0_I_extreme_weights_witness :
  Z0_I (sequenceToI "A") motif_not_A [uniform_row] 0 = Ok 0 /\
  Z0_I (sequenceToI "A") motif_not_A [uniform_row] 1 = NotFinite.
Proof.
  destruct (Z0_I_extreme_weights (sequenceToI "A") motif_not_A [uniform_row])
    as (Z & _ & _ & N).
  - repeat constructor.
  - repeat constructor.
  - split; [apply Z|apply N].
    + apply Qc_neq_of_bool. vm_compute. reflexivity.
    + by_evaluation.
Defined.

Lemma Z0_I_mismatch (I : mask) (tm tb : matrix) (lam : Qc) :
  ~ (same_shape I tm /\ same_shape I tb) -> Z0_I I tm tb lam = Raise IndexError.
Proof.
  intros N. unfold Z0_I.
  destruct (same_shape_dec I tm) as [Sm|Nm].
  - rewrite (pI_motif_likelihood I tm Sm). simpl.
    destruct (same_shape_dec I tb) as [Sb|Nb]; [tauto|].
    unfold pI_background. fold (pI_motif I tb).
    now rewrite (pI_motif_mismatch I tb Nb).
  - now rewrite (pI_motif_mismatch I tm Nm).
Qed.

(** X11.  The three outcomes of [Z0_I]: an [IndexError] exactly when one of
    the matrices has not the shape of the mask; otherwise no number exactly
    when the two weighted likelihoods add up to zero; otherwise the
    fraction of Bayes' rule.  No other exception is raised. *)
Theorem Z0_I_outcomes (I : mask) (theta_m theta_b : matrix) (lam : Qc) :
  let a := likelihood I theta_m * lam in
  let b := likelihood I theta_b * (1 - lam) in
  (~ (same_shape I theta_m /\ same_shape I theta_b) /\
   Z0_I I theta_m theta_b lam = Raise IndexError) \/
  (same_shape I theta_m /\ same_shape I theta_b /\ a + b = 0 /\
   Z0_I I theta_m theta_b lam = NotFinite) \/
  (same_shape I theta_m /\ same_shape I theta_b /\ a + b <> 0 /\
   Z0_I I theta_m theta_b lam = Ok (a / (a + b))).
Proof.
  intros a b.
  destruct (same_shape_dec I theta_m) as [Sm|Nm];
    [destruct (same_shape_dec I theta_b) as [Sb|Nb]|].
  - right. rewrite Z0_I_unfold by assumption. fold a b.
    destruct (Qc_eq_dec (a + b) 0) as [E|E].
    + left. split; [exact Sm|]. split; [exact Sb|]. split; [exact E|].
      rewrite E. apply fdiv_zero.
    + right. split; [exact Sm|]. split; [exact Sb|]. split; [exact E|].
      now apply fdiv_ok.
  - left. split; [tauto|]. apply Z0_I_mismatch. tauto.
  - left. split; [tauto|]. apply Z0_I_mismatch. tauto.
Qed.

(** ** The online estimator, further *)

Lemma loop_shapes (W : nat) (first : bool) (st st' : em_state) (Y : list string) :
  shape_invariant first st -> online_loop W st Y = Ok st' ->
  Forall (fun y => shape_of (sequenceToI y) = shape_of (s1_2 st)) Y /\
  shape_of (s1_2 st') = shape_of (s1_2 st) /\
  (Y <> [] -> shape_of (s2_2 st') = shape_of (s1_2 st)).
Proof.
  revert first st. induction Y as [|y Y IH]; intros first st Inv H; simpl in H.
  - injection H as <-. repeat split; [constructor|congruence].
  - apply bind_ok in H as (st1 & E & H).
    destruct (shape_invariant_step W first st st1 y Inv E)
      as (S1 & _ & E1 & E2 & Inv1).
    apply same_shape_shape_of in S1.
    destruct (IH false st1 Inv1 H) as (F & E1' & E2').
    rewrite E1, S1 in *. repeat split.
    + constructor; [exact S1|]. exact F.
    + exact E1'.
    + intros _. destruct Y as [|y' Y].
      * simpl in H. injection H as <-. now rewrite E2.
      * apply E2'. discriminate.
Qed.

Lemma shape_of_length {A B : Type} (m : list (list A)) (m' : list (list B)) :
  shape_of m = shape_of m' -> length m = length m'.
Proof.
  intros H. apply (f_equal (@length nat)) in H.
  unfold shape_of in H. now rewrite !length_map in H.
Qed.

(** X12.  [Online_EM] returns a model only if every sequence has as many
    symbols as the motif matrix has rows (and, when there is a sequence,
    the matrix has four columns); the motif matrix it returns has the shape
    of the initial one. *)
Theorem Online_EM_sequence_lengths (Y : list string) (tm0 tb0 tm tb : matrix)
    (lam0 lam : Qc) :
  Online_EM Y tm0 tb0 lam0 = Ok (tm, tb, lam) ->
  Forall (fun y => String.length y = length tm0) Y /\
  Forall (fun y => shape_of (sequenceToI y) = shape_of tm0) Y /\
  shape_of tm = shape_of tm0.
Proof.
  intros H. unfold Online_EM in H. apply bind_ok in H as (st & Hl & H).
  injection H as <- <- <-.
  assert (Inv : shape_invariant true (online_init tm0 tb0 lam0)) by now split.
  destruct (loop_shapes _ _ _ _ _ Inv Hl) as (F & E & _). cbn [online_init s1_2] in *.
  assert (Inv' := shape_invariant_loop _ _ _ _ _ Inv Hl).
  destruct Inv' as (Em & _). rewrite Em.
  repeat split; auto.
  revert F. apply Forall_impl. intros y Hy.
  apply shape_of_length in Hy.
  rewrite <- (sequenceToI_length y). exact Hy.
Qed.

Lemma Online_EM_sequence_lengths_witness :
  Forall (fun y => String.length y = length [[1; 0; 0; 0]]) ["A"%string] /\
  Forall (fun y => shape_of (sequenceToI y) = shape_of [[1; 0; 0; 0]]) ["A"%string] /\
  shape_of (theta_motif state1) = shape_of [[1; 0; 0; 0]].
Proof.
  apply (Online_EM_sequence_lengths ["A"%string] [[1; 0; 0; 0]] [uniform_row]
           (theta_motif state1) (theta_background_matrix state1) half
           (lambda_motif state1)).
  by_evaluation.
Defined.

Lemma same_shape_length (I : mask) (theta : matrix) :
  same_shape I theta -> length I = length theta.
Proof. induction 1; simpl; congruence. Qed.

(** X13.  A first sequence whose length is not the number of rows of the
    motif matrix stops [Online_EM] with an [IndexError], whatever follows
    it. *)
Theorem Online_EM_wrong_length (y : string) (Y : list string) (tm0 tb0 : matrix)
    (lam0 : Qc) :
  String.length y <> length tm0 ->
  Online_EM (y :: Y) tm0 tb0 lam0 = Raise IndexError.
Proof.
  intros N. unfold Online_EM. cbn [online_loop]. unfold online_step at 1.
  cbn [online_init theta_motif theta_background_matrix lambda_motif].
  rewrite Z0_I_mismatch; [reflexivity|].
  intros (S & _). apply same_shape_length in S.
  apply N. rewrite <- (sequenceToI_length y). exact S.
Qed.

Lemma Online_EM_wrong_length_witness :
  Online_EM ["AC"%string; "A"%string] [uniform_row] [uniform_row] half
  = Raise IndexError.
Proof.
  apply (Online_EM_wrong_length "AC" ["A"%string] [uniform_row] [uniform_row] half).
  discriminate.
Defined.












Lemma vadd_length (u v : vector) (w : nat) :
  length u = w -> length v = w -> length (vadd u v) = w.
Proof.
  intros Lu Lv. unfold vadd. rewrite map2_length; congruence.
Qed.

Lemma colsum_length (m : matrix) (w : nat) :
  m <> [] -> Forall (fun r : vector => length r = w) m -> length (colsum m) = w.
Proof.
  destruct m as [|r rs]; [congruence|]. intros _ F.
  apply Forall_cons_iff in F as (Hr & F). simpl.
  revert r Hr. induction F as [|r' rs Hr' _ IH]; intros r Hr; simpl;
    [exact Hr|].
  apply IH. now apply vadd_length.
Qed.




(** ** The batch M-step, further *)

Lemma M_value (Zs : list (list Qc)) (n : BinInt.Z) (c0 : vector) (c : matrix) :
  n <> 0%Z ->
  Forall (fun r : vector => length r = length c0) c ->
  Forall (fun r : vector => vsum r <> 0) (c0 :: c) ->
  M Zs n c0 c =
    Ok (vsum (concat Zs) / Q2Qc (inject_Z n), map normalize_row c,
        repeat (normalize_row c0) (length c)).
Proof.
  intros Hn Hc Hs. unfold M. rewrite (Z_total_over_n_ok Zs n Hn). cbn [bind].
  rewrite (concatenate_ok c0 c Hc). cbn [bind].
  rewrite vinv_nonzero by (rewrite Forall_map; exact Hs). cbn [bind].
  rewrite dot_diag.
  - rewrite map2_scale_rowsums. cbn [map tl hd]. now rewrite length_map.
  - now rewrite !length_map.
  - constructor; [reflexivity|exact Hc].
Qed.

Lemma vinv_zero (v : vector) :
  Exists (fun x => x = 0) v -> vinv v = NotFinite.
Proof.
  induction 1 as [x v ->|x v _ IH]; cbn [vinv].
  - now rewrite fdiv_zero.
  - rewrite IH. unfold fdiv. destruct (Qc_eq_bool x 0); reflexivity.
Qed.

Lemma concatenate_ragged (c0 : vector) (c : matrix) :
  Exists (fun r : vector => length r <> length c0) c ->
  concatenate c0 c = Raise ValueError.
Proof.
  intros H. unfold concatenate.
  replace (forallb _ c) with false; [reflexivity|].
  symmetry. apply not_true_is_false. intros F.
  rewrite forallb_forall in F. apply Exists_exists in H as (r & Hr & N).
  apply N. apply Nat.eqb_eq. now apply F.
Qed.

(** X18.  How the batch M-step fails: with no [Z] value at all and [n = 0]
    it raises [ZeroDivisionError]; with [n] not zero, a row of [c] that is
    not as long as [c0] makes it raise [ValueError]; and with rows of the
    right length, a row of the stack whose sum is zero gives no number. *)
Theorem M_failures (Zs : list (list Qc)) (n : BinInt.Z) (c0 : vector) (c : matrix) :
  (concat Zs = [] -> n = 0%Z -> M Zs n c0 c = Raise ZeroDivisionError) /\
  (n <> 0%Z -> Exists (fun r : vector => length r <> length c0) c ->
   M Zs n c0 c = Raise ValueError) /\
  (n <> 0%Z -> Forall (fun r : vector => length r = length c0) c ->
   Exists (fun r : vector => vsum r = 0) (c0 :: c) ->
   M Zs n c0 c = NotFinite).
Proof.
  repeat split.
  - intros E ->. unfold M, Z_total_over_n. rewrite E. reflexivity.
  - intros Hn H. unfold M. rewrite (Z_total_over_n_ok Zs n Hn). cbn [bind].
    now rewrite concatenate_ragged.
  - intros Hn Hc H. unfold M. rewrite (Z_total_over_n_ok Zs n Hn). cbn [bind].
    rewrite (concatenate_ok c0 c Hc). cbn [bind].
    rewrite vinv_zero; [reflexivity|].
    apply Exists_exists in H as (r & Hr & Hz). apply Exists_exists.
    exists (vsum r). split; [now apply in_map|exact Hz].
Qed.

Lemma M_failures_witness :
  M [] 0 [1; 1] [[1; 1]] = Raise ZeroDivisionError /\
  M [[half]] 2 [1; 1] [[1; 1; 1]] = Raise ValueError /\
  M [[half]] 2 [1; 1] [[0; 0]] = NotFinite.
Proof.
  split; [|split].
  - apply (M_failures [] 0 [1; 1] [[1; 1]]); reflexivity.
  - apply (M_failures [[half]] 2 [1; 1] [[1; 1; 1]]); [discriminate|].
    constructor. discriminate.
  - apply (M_failures [[half]] 2 [1; 1] [[0; 0]]); [discriminate| |].
    + repeat constructor.
    + apply Exists_cons_tl. constructor. by_evaluation.
Defined.

Lemma vsum_vscale (k : Qc) (r : vector) : vsum (vscale k r) = k * vsum r.
Proof.
  unfold vscale. induction r as [|x r IH]; simpl; [ring|]. rewrite IH. ring.
Qed.

Lemma normalize_row_scale (k : Qc) (r : vector) :
  k <> 0 -> vsum r <> 0 -> normalize_row (vscale k r) = normalize_row r.
Proof.
  intros Hk Hr. unfold normalize_row. rewrite vsum_vscale.
  unfold vscale. rewrite map_map. apply map_ext. intros x. field. now split.
Qed.

(** X19.  The batch M-step looks at proportions only: multiplying all the
    counts [c0] and [c] by one factor that is not zero changes nothing in
    what it returns. *)
Theorem M_scale_invariant (k : Qc) (Zs : list (list Qc)) (n : BinInt.Z)
    (c0 : vector) (c : matrix) :
  k <> 0 -> n <> 0%Z ->
  Forall (fun r : vector => length r = length c0) c ->
  Forall (fun r : vector => vsum r <> 0) (c0 :: c) ->
  M Zs n (vscale k c0) (map (vscale k) c) = M Zs n c0 c.
Proof.
  intros Hk Hn Hc Hs.
  rewrite (M_value Zs n c0 c Hn Hc Hs).
  rewrite M_value.
  - apply Forall_cons_iff in Hs as (H0 & Hs).
    rewrite (normalize_row_scale k c0 Hk H0), length_map, map_map.
    f_equal. f_equal. f_equal.
    apply map_ext_in. intros r Hr. apply normalize_row_scale; [exact Hk|].
    rewrite Forall_forall in Hs. now apply Hs.
  - exact Hn.
  - apply Forall_map. revert Hc. apply Forall_impl. intros r Hr.
    unfold vscale. now rewrite !length_map.
  - change (vscale k c0 :: map (vscale k) c) with (map (vscale k) (c0 :: c)).
    apply Forall_map. revert Hs. apply Forall_impl. intros r Hr.
    rewrite vsum_vscale. intros E. apply Qcmult_integral in E. tauto.
Qed.

Lemma M_scale_invariant_witness :
  M [[half; third]] 2 (vscale half [1; 1; 1; 1])
    (map (vscale half) [[1; 0; half; 0]; [1; 0; 1; 0]]) =
  M [[half; third]] 2 [1; 1; 1; 1] [[1; 0; half; 0]; [1; 0; 1; 0]].
Proof.
  apply (M_scale_invariant half [[half; third]] 2 [1; 1; 1; 1]
           [[1; 0; half; 0]; [1; 0; 1; 0]]).
  - apply Qc_neq_of_bool. vm_compute. reflexivity.
  - discriminate.
  - repeat constructor.
  - repeat constructor; apply Qc_neq_of_bool; vm_compute; reflexivity.
Defined.

Lemma normalize_row_fixed (r : vector) : vsum r = 1 -> normalize_row r = r.
Proof.
  intros E. unfold normalize_row. rewrite E.
  rewrite <- (map_id r) at 2. apply map_ext. intros x. field. discriminate.
Qed.

(** X20.  Counts that are already distributions are a fixed point: when
    [c0] and every row of [c] sum to 1 the batch M-step returns [c] as the
    motif matrix and copies of [c0] as the background matrix. *)
Theorem M_fixed_point (Zs : list (list Qc)) (n : BinInt.Z) (c0 : vector)
    (c : matrix) :
  n <> 0%Z ->
  Forall (fun r : vector => length r = length c0) c ->
  Forall (fun r : vector => vsum r = 1) (c0 :: c) ->
  M Zs n c0 c =
    Ok (vsum (concat Zs) / Q2Qc (inject_Z n), c, repeat c0 (length c)).
Proof.
  intros Hn Hc Hs. rewrite M_value; [|exact Hn|exact Hc|].
  - apply Forall_cons_iff in Hs as (H0 & Hs).
    rewrite (normalize_row_fixed c0 H0). f_equal. f_equal. f_equal.
    rewrite <- (map_id c) at 2. apply map_ext_in. intros r Hr.
    apply normalize_row_fixed. rewrite Forall_forall in Hs. now apply Hs.
  - revert Hs. apply Forall_impl. intros r ->. discriminate.
Qed.

Lemma M_fixed_point_witness :
  M [[half; third]] 2 uniform_row [uniform_row; [1; 0; 0; 0]] =
  Ok (vsum (concat [[half; third]]) / Q2Qc (inject_Z 2),
      [uniform_row; [1; 0; 0; 0]], repeat uniform_row 2).
Proof.
  apply (M_fixed_point [[half; third]] 2 uniform_row [uniform_row; [1; 0; 0; 0]]).
  - discriminate.
  - repeat constructor.
  - repeat constructor; by_evaluation.
Defined.

(** ** The driver *)

(** X21.  [meme] fits a model to a collection that is not empty only when
    the width [W] it is given is the number of rows of the motif read from
    the file, and every sequence has exactly [W] symbols. *)
Theorem meme_width (NRF1_Motif : matrix) (Y : list string) (W NPASSES : nat)
    (tm tb : matrix) (lam : Qc) :
  Y <> [] ->
  meme NRF1_Motif Y W NPASSES = Ok (tm, tb, lam) ->
  W = length NRF1_Motif /\ Forall (fun y => String.length y = W) Y.
Proof.
  intros NE H. unfold meme in H. cbn [flat_map] in H. rewrite app_nil_r in H.
  unfold Online_EM in H. apply bind_ok in H as (st & Hl & _).
  set (tb0 := repeat _ W) in *. set (lam0 := Q2Qc (1 # 2)) in *.
  assert (Inv : shape_invariant true (online_init NRF1_Motif tb0 lam0)) by now split.
  destruct (loop_shapes _ _ _ _ _ Inv Hl) as (F & _ & _).
  cbn [online_init s1_2] in F.
  assert (EW : W = length NRF1_Motif).
  { destruct Y as [|y Y]; [congruence|]. simpl in Hl.
    apply bind_ok in Hl as (st1 & Hs & _).
    apply online_step_inv in Hs as (Z & tbm & EZ & _).
    apply Z0_I_shapes in EZ as (Sm & Sb).
    cbn [online_init theta_motif theta_background_matrix] in Sm, Sb.
    apply same_shape_length in Sm, Sb. unfold tb0 in Sb.
    rewrite repeat_length in Sb. congruence. }
  split; [exact EW|]. rewrite EW.
  revert F. apply Forall_impl. intros y Hy. apply shape_of_length in Hy.
  rewrite <- (sequenceToI_length y). exact Hy.
Qed.

Lemma meme_width_witness :
  1%nat = length [[1; 0; 0; 0]] /\
  Forall (fun y => String.length y = 1%nat) ["A"%string].
Proof.
  apply (meme_width [[1; 0; 0; 0]] ["A"%string] 1 1
           (theta_motif state1) (theta_background_matrix state1)
           (lambda_motif state1)).
  - discriminate.
  - by_evaluation.
Defined.

(** ** The batch E-step *)

Lemma traverse_ok {A B : Type} (f : A -> result B) (l : list A) (ys : list B) :
  traverse f l = Ok ys -> Forall2 (fun x y => f x = Ok y) l ys.
Proof.
  revert ys. induction l as [|x l IH]; intros ys H; simpl in H.
  - injection H as <-. constructor.
  - destruct (f x) as [y| |e] eqn:E; destruct (traverse f l) as [ys'| |e'];
      try discriminate.
    injection H as <-. constructor; auto.
Qed.

Lemma traverse_raise {A B : Type} (f : A -> result B) (l : list A) (e : exn) :
  (forall x e', f x = Raise e' -> e' = e) ->
  Exists (fun x => f x = Raise e) l -> traverse f l = Raise e.
Proof.
  intros U. induction 1 as [x l E|x l _ IH]; simpl.
  - now rewrite E.
  - rewrite IH. destruct (f x) as [y| |e'] eqn:E; try reflexivity.
    now rewrite (U x e' E).
Qed.

Lemma vsum_vadd (u v : vector) :
  length u = length v -> vsum (vadd u v) = vsum u + vsum v.
Proof.
  unfold vadd. revert v. induction u as [|x u IH]; intros [|y v] L;
    try discriminate; simpl.
  - ring.
  - rewrite IH by (simpl in L; congruence). ring.
Qed.

Lemma vsum_zeros (k : nat) : vsum (repeat 0 k) = 0.
Proof. induction k as [|k IH]; simpl; [reflexivity|]. rewrite IH. ring. Qed.

Lemma vsum_app (u v : vector) : vsum (u ++ v) = vsum u + vsum v.
Proof. induction u as [|x u IH]; simpl; [ring|]. rewrite IH. ring. Qed.

Lemma vsum_colsum (m : matrix) (w : nat) :
  Forall (fun r : vector => length r = w) m ->
  vsum (colsum m) = vsum (map vsum m).
Proof.
  intros [|r rs Hr F]; [reflexivity|]. simpl.
  revert r Hr. induction F as [|r' rs Hr' _ IH]; intros r Hr; simpl.
  - ring.
  - rewrite IH by now apply vadd_length.
    rewrite vsum_vadd by congruence. ring.
Qed.

Lemma sequenceToI_one_hot (X : string) :
  nucleotide_string X -> one_hot_mask (sequenceToI X).
Proof.
  unfold nucleotide_string, one_hot_mask, sequenceToI. intros F.
  apply Forall_map. revert F. apply Forall_impl. intros l Hl.
  split; [reflexivity|now apply indicator_row_one_hot].
Qed.

Lemma Qc_of_nat_ones (v : vector) :
  Forall (fun x => x = 1) v -> vsum v = Qc_of_nat (length v).
Proof. induction 1 as [|x v -> _ IH]; simpl; [reflexivity|]. now rewrite IH. Qed.

Lemma mask_colsum_sum (I : mask) :
  one_hot_mask I -> vsum (mask_colsum I) = Qc_of_nat (length I).
Proof.
  intros F. unfold mask_colsum. rewrite (vsum_colsum _ 4).
  - rewrite Qc_of_nat_ones; [now rewrite !length_map|].
    rewrite map_map. apply Forall_map. revert F. apply Forall_impl. tauto.
  - apply Forall_map. revert F. apply Forall_impl. intros Ir (L & _).
    now rewrite length_map.
Qed.

Lemma mask_colsum_length (I : mask) (theta : matrix) :
  one_hot_mask I -> same_shape I theta ->
  length (mask_colsum I) = length (hd [] theta).
Proof.
  intros F S. destruct S as [|Ir tr I theta L S]; [reflexivity|].
  unfold mask_colsum. cbn [hd]. rewrite <- L.
  apply Forall_cons_iff in F as ((L4 & H1) & F).
  rewrite L4. apply colsum_length; [discriminate|].
  cbn [map]. constructor; [now rewrite length_map|].
  apply Forall_map. revert F. apply Forall_impl. intros r (Lr & _).
  now rewrite length_map.
Qed.

Lemma madd_mask_rows (I : mask) (c : matrix) (z sigma : Qc) :
  same_shape I c -> one_hot_mask I ->
  Forall (fun r => vsum r = sigma) c ->
  Forall (fun r => vsum r = sigma + z) (madd c (mask_scale z I)) /\
  shape_of (madd c (mask_scale z I)) = shape_of c.
Proof.
  induction 1 as [|Ir r I c L S IH]; intros F Hs.
  - split; [constructor|reflexivity].
  - apply Forall_cons_iff in F as ((_ & H1) & F).
    apply Forall_cons_iff in Hs as (Hr & Hs).
    destruct (IH F Hs) as (IH1 & IH2).
    unfold madd, mask_scale in *. cbn [map map2]. split.
    + constructor; [|exact IH1].
      change (map2 Qcplus r (map (fun b => z * of_bool b) Ir))
        with (vadd r (map (fun b => z * of_bool b) Ir)).
      rewrite vsum_vadd by now rewrite length_map.
      rewrite Hr. f_equal.
      rewrite <- (map_map of_bool (Qcmult z)).
      change (map (Qcmult z) (map of_bool Ir)) with (vscale z (map of_bool Ir)).
      rewrite vsum_vscale, H1. ring.
    + cbn [shape_of map] in *. f_equal; [|exact IH2].
      unfold vadd. rewrite map2_length; rewrite length_map; congruence.
Qed.

(** One turn of the inner loop of [E] on an indicator matrix of nucleotides
    that fits the motif matrix. *)
Lemma E_accumulate_counts (theta : matrix) (c0 : vector) (c : matrix)
    (z : Qc) (I : mask) (sigma tau : Qc) :
  one_hot_mask I -> same_shape I theta ->
  shape_of c = shape_of theta -> length c0 = length (hd [] theta) ->
  Forall (fun r => vsum r = sigma) c -> vsum c0 = tau ->
  shape_of (snd (E_accumulate (c0, c) (z, I))) = shape_of theta /\
  length (fst (E_accumulate (c0, c) (z, I))) = length (hd [] theta) /\
  Forall (fun r => vsum r = sigma + z) (snd (E_accumulate (c0, c) (z, I))) /\
  vsum (fst (E_accumulate (c0, c) (z, I))) =
    tau + (1 - z) * Qc_of_nat (length theta).
Proof.
  intros F S Ec L0 Hs H0. cbn [E_accumulate fst snd].
  assert (Sc : same_shape I c).
  { apply same_shape_shape_of. rewrite Ec. now apply same_shape_shape_of. }
  destruct (madd_mask_rows I c z sigma Sc F Hs) as (R1 & R2).
  pose proof (mask_colsum_length I theta F S) as Lc.
  repeat split.
  - congruence.
  - apply vadd_length; [exact L0|]. unfold vscale. now rewrite length_map.
  - exact R1.
  - rewrite vsum_vadd by (unfold vscale; rewrite length_map; congruence).
    rewrite vsum_vscale, mask_colsum_sum by exact F.
    rewrite (same_shape_length I theta S), H0. reflexivity.
Qed.

Lemma E_inner_counts (theta tb : matrix) (lam : Qc) (Is : list mask)
    (zs : list Qc) :
  Forall2 (fun I z => Z0_I I theta tb lam = Ok z) Is zs ->
  Forall one_hot_mask Is ->
  forall (c0 : vector) (c : matrix) (sigma tau : Qc),
  shape_of c = shape_of theta -> length c0 = length (hd [] theta) ->
  Forall (fun r => vsum r = sigma) c -> vsum c0 = tau ->
  let acc := fold_left E_accumulate (combine zs Is) (c0, c) in
  shape_of (snd acc) = shape_of theta /\
  length (fst acc) = length (hd [] theta) /\
  Forall (fun r => vsum r = sigma + vsum zs) (snd acc) /\
  vsum (fst acc) =
    tau + Qc_of_nat (length theta) * vsum (map (fun z => 1 - z) zs).
Proof.
  induction 1 as [|I z Is zs EZ _ IH]; intros F c0 c sigma tau Ec L0 Hs H0.
  - simpl. repeat split; auto.
    + revert Hs. apply Forall_impl. intros r ->. ring.
    + rewrite H0. ring.
  - apply Forall_cons_iff in F as (FI & F).
    destruct (Z0_I_shapes _ _ _ _ _ EZ) as (S & _).
    destruct (E_accumulate_counts theta c0 c z I sigma tau FI S Ec L0 Hs H0)
      as (A1 & A2 & A3 & A4).
    cbn [combine fold_left].
    destruct (E_accumulate (c0, c) (z, I)) as (c0', c') eqn:Eacc.
    cbn [fst snd] in *.
    destruct (IH F c0' c' _ _ A1 A2 A3 A4) as (B1 & B2 & B3 & B4).
    repeat split; auto.
    + revert B3. apply Forall_impl. intros r ->. simpl. ring.
    + rewrite B4. simpl. ring.
Qed.

Lemma E_outer_counts (theta tb : matrix) (lam : Qc) (I : list (list mask))
    (Zs : list (list Qc)) :
  Forall2 (Forall2 (fun Iij z => Z0_I Iij theta tb lam = Ok z)) I Zs ->
  Forall (Forall one_hot_mask) I ->
  forall (c0 : vector) (c : matrix) (sigma tau : Qc),
  shape_of c = shape_of theta -> length c0 = length (hd [] theta) ->
  Forall (fun r => vsum r = sigma) c -> vsum c0 = tau ->
  let acc := E_loops Zs I (c0, c) in
  shape_of (snd acc) = shape_of theta /\
  length (fst acc) = length (hd [] theta) /\
  Forall (fun r => vsum r = sigma + vsum (concat Zs)) (snd acc) /\
  vsum (fst acc) =
    tau + Qc_of_nat (length theta) * vsum (map (fun z => 1 - z) (concat Zs)).
Proof.
  induction 1 as [|Ii Zi I Zs EZ _ IH]; intros F c0 c sigma tau Ec L0 Hs H0.
  - simpl. repeat split; auto.
    + revert Hs. apply Forall_impl. intros r ->. ring.
    + rewrite H0. ring.
  - apply Forall_cons_iff in F as (FI & F).
    destruct (E_inner_counts theta tb lam Ii Zi EZ FI c0 c sigma tau Ec L0 Hs H0)
      as (A1 & A2 & A3 & A4).
    unfold E_loops in *. cbn [combine fold_left fst snd].
    destruct (fold_left E_accumulate (combine Zi Ii) (c0, c)) as (c0', c').
    cbn [fst snd] in *.
    destruct (IH F c0' c' _ _ A1 A2 A3 A4) as (B1 & B2 & B3 & B4).
    repeat split; auto.
    + revert B3. apply Forall_impl. intros r ->.
      cbn [concat]. rewrite vsum_app. ring.
    + rewrite B4. cbn [concat]. rewrite map_app, vsum_app. ring.
Qed.

Lemma E_inv (I : list (list mask)) (tm tb : matrix) (lam : Qc)
    (Zs : list (list Qc)) (c0 : vector) (c : matrix) :
  E I tm tb lam = Ok (Zs, c0, c) ->
  Forall2 (Forall2 (fun Iij z => Z0_I Iij tm tb lam = Ok z)) I Zs /\
  (c0, c) =
    E_loops Zs I (repeat 0 (length (hd [] tm)),
                  map (fun r : vector => repeat 0 (length r)) tm).
Proof.
  unfold E. intros H. apply bind_ok in H as (Zs0 & ET & H).
  destruct (E_loops Zs0 I _) as (a, b) eqn:EF.
  injection H as <- <- <-. split; [|now rewrite EF].
  apply traverse_ok in ET. revert ET. apply Forall2_impl.
  intros Ii Zi. apply traverse_ok.
Qed.

Lemma E_counts_facts (Xs : list (list string)) (tm tb : matrix) (lam : Qc)
    (Zs : list (list Qc)) (c0 : vector) (c : matrix) :
  Forall (Forall nucleotide_string) Xs ->
  E (map (map sequenceToI) Xs) tm tb lam = Ok (Zs, c0, c) ->
  Forall2 (Forall2 (fun Iij z => Z0_I Iij tm tb lam = Ok z))
          (map (map sequenceToI) Xs) Zs /\
  shape_of c = shape_of tm /\
  length c0 = length (hd [] tm) /\
  Forall (fun r => vsum r = vsum (concat Zs)) c /\
  vsum c0 = Qc_of_nat (length tm) * vsum (map (fun z => 1 - z) (concat Zs)).
Proof.
  intros F H. apply E_inv in H as (EZ & EF).
  assert (FI : Forall (Forall one_hot_mask) (map (map sequenceToI) Xs)).
  { apply Forall_map. revert F. apply Forall_impl. intros Xi Fi.
    apply Forall_map. revert Fi. apply Forall_impl. exact sequenceToI_one_hot. }
  assert (P := E_outer_counts tm tb lam _ Zs EZ FI
              (repeat 0 (length (hd [] tm)))
              (map (fun r : vector => repeat 0 (length r)) tm) 0 0).
  cbv zeta in P.
  pose proof (f_equal fst EF) as E0. pose proof (f_equal snd EF) as E1.
  cbn [fst snd] in E0, E1.
  destruct P as (A1 & A2 & A3 & A4).
  - unfold shape_of. rewrite map_map. apply map_ext. intros r. apply repeat_length.
  - apply repeat_length.
  - apply Forall_map, Forall_forall. intros r _. apply vsum_zeros.
  - apply vsum_zeros.
  - rewrite E0, E1. split; [exact EZ|]. repeat split.
    + exact A1.
    + exact A2.
    + revert A3. apply Forall_impl. intros r ->. ring.
    + etransitivity; [exact A4|ring].
Qed.

(** X22.  The expected counts of the batch E-step on sequences of
    nucleotides: there is one responsibility per sequence, [c] has the
    shape of the motif matrix and each of its rows sums to the total of the
    responsibilities, and [c0] sums to the number of positions times the
    total of their complements. *)
Theorem E_expected_counts (Xs : list (list string)) (tm tb : matrix) (lam : Qc)
    (Zs : list (list Qc)) (c0 : vector) (c : matrix) :
  Forall (Forall nucleotide_string) Xs ->
  E (map (map sequenceToI) Xs) tm tb lam = Ok (Zs, c0, c) ->
  map (@length Qc) Zs = map (@length string) Xs /\
  shape_of c = shape_of tm /\
  Forall (fun r => vsum r = vsum (concat Zs)) c /\
  vsum c0 = Qc_of_nat (length tm) * vsum (map (fun z => 1 - z) (concat Zs)).
Proof.
  intros F H.
  destruct (E_counts_facts Xs tm tb lam Zs c0 c F H) as (EZ & A1 & _ & A3 & A4).
  repeat split; auto.
  clear -EZ. revert Zs EZ. induction Xs as [|Xi Xs IH]; intros Zs EZ;
    inversion EZ as [|? Zi ? Zs' E1 E2]; subst; [reflexivity|].
  simpl. f_equal; [|now apply IH].
  apply Forall2_length in E1. now rewrite length_map in E1.
Qed.

Lemma E_expected_counts_witness :
  exists Zs c0 c,
    E [[sequenceToI "A"; sequenceToI "C"]] [[1; 0; 0; 0]] [uniform_row] half
      = Ok (Zs, c0, c) /\
    map (@length Qc) Zs = [2%nat] /\
    Forall (fun r => vsum r = vsum (concat Zs)) c /\
    vsum c0 = Qc_of_nat 1 * vsum (map (fun z => 1 - z) (concat Zs)).
Proof.
  destruct (E [[sequenceToI "A"; sequenceToI "C"]] [[1; 0; 0; 0]] [uniform_row] half)
    as [[[Zs c0] c]| |] eqn:H; try (vm_compute in H; discriminate).
  exists Zs, c0, c. split; [reflexivity|].
  destruct (E_expected_counts [["A"; "C"]%string] [[1; 0; 0; 0]] [uniform_row]
              half Zs c0 c) as (A & _ & B & C).
  - repeat constructor; simpl; tauto.
  - exact H.
  - auto.
Defined.

Lemma Z0_I_raise (I : mask) (tm tb : matrix) (lam : Qc) (e : exn) :
  Z0_I I tm tb lam = Raise e -> e = IndexError.
Proof.
  intros H.
  destruct (same_shape_dec I tm) as [Sm|Nm];
    [destruct (same_shape_dec I tb) as [Sb|Nb]|].
  - rewrite Z0_I_unfold in H by assumption. unfold fdiv in H.
    destruct (Qc_eq_bool _ 0); discriminate.
  - rewrite Z0_I_mismatch in H by tauto. congruence.
  - rewrite Z0_I_mismatch in H by tauto. congruence.
Qed.

Lemma traverse_raise_inv {A B : Type} (f : A -> result B) (l : list A) (e e' : exn) :
  (forall x e0, f x = Raise e0 -> e0 = e) ->
  traverse f l = Raise e' -> e' = e.
Proof.
  intros U. induction l as [|x l IH]; simpl; [discriminate|].
  destruct (f x) as [y| |e0] eqn:E; destruct (traverse f l) as [ys| |e1];
    intros H; try discriminate; injection H as <-; eauto.
Qed.

(** X23.  The batch E-step computes every responsibility before it counts:
    one indicator matrix that has not the shape of the two matrices,
    wherever it is in the data, makes [E] raise [IndexError]. *)
Theorem E_wrong_shape (I : list (list mask)) (tm tb : matrix) (lam : Qc) :
  Exists (Exists (fun Iij => ~ (same_shape Iij tm /\ same_shape Iij tb))) I ->
  E I tm tb lam = Raise IndexError.
Proof.
  intros H. unfold E. rewrite (traverse_raise _ I IndexError); [reflexivity| |].
  - intros Ii e. apply traverse_raise_inv. intros Iij e0. apply Z0_I_raise.
  - revert H. apply Exists_impl. intros Ii Hi.
    apply traverse_raise; [intros Iij e0; apply Z0_I_raise|].
    revert Hi. apply Exists_impl. intros Iij N. now apply Z0_I_mismatch.
Qed.

Lemma E_wrong_shape_witness :
  E [[sequenceToI "A"; sequenceToI "AC"]] [uniform_row] [uniform_row] half
  = Raise IndexError.
Proof.
  apply (E_wrong_shape [[sequenceToI "A"; sequenceToI "AC"]] [uniform_row]
           [uniform_row] half).
  constructor. apply Exists_cons_tl. constructor.
  intros (S & _). apply same_shape_length in S. discriminate.
Defined.

Lemma same_shape_widths (I : mask) (theta : matrix) :
  same_shape I theta -> one_hot_mask I ->
  Forall (fun r : vector => length r = length (hd [] theta)) theta.
Proof.
  intros S F.
  assert (W4 : Forall (fun r : vector => length r = 4%nat) theta).
  { revert F. induction S as [|Ir tr I theta L _ IH]; intros F; constructor.
    - apply Forall_cons_iff in F as ((L4 & _) & _). congruence.
    - apply IH. now apply Forall_cons_iff in F as (_ & F). }
  destruct theta as [|r theta]; [constructor|].
  cbn [hd]. pose proof W4 as W4'. apply Forall_cons_iff in W4' as (Hr & _).
  rewrite Hr. exact W4.
Qed.

Lemma shape_of_rows {A : Type} (m m' : list (list A)) (w : nat) :
  shape_of m = shape_of m' ->
  Forall (fun r : list A => length r = w) m' ->
  Forall (fun r : list A => length r = w) m.
Proof.
  revert m'. induction m as [|r m IH]; intros [|r' m'] H F; try discriminate;
    constructor.
  - simpl in H. injection H as H _. apply Forall_cons_iff in F as (F & _). congruence.
  - simpl in H. injection H as _ H. apply Forall_cons_iff in F as (_ & F). eauto.
Qed.

(** X24.  The M-step after the E-step on sequences of nucleotides: when the
    responsibilities do not add up to zero and [c0] does not either, the
    new mixture weight is their total over [n], the new motif matrix is [c]
    divided by their total, and the background matrix is [c0] divided by
    its sum, once per row of the motif matrix. *)
Theorem M_after_E (Xs : list (list string)) (tm tb : matrix) (lam : Qc)
    (Zs : list (list Qc)) (c0 : vector) (c : matrix) (n : BinInt.Z) :
  Forall (Forall nucleotide_string) Xs ->
  E (map (map sequenceToI) Xs) tm tb lam = Ok (Zs, c0, c) ->
  n <> 0%Z -> vsum (concat Zs) <> 0 -> vsum c0 <> 0 ->
  M Zs n c0 c =
    Ok (vsum (concat Zs) / Q2Qc (inject_Z n),
        map (map (fun x => x / vsum (concat Zs))) c,
        repeat (map (fun x => x / vsum c0) c0) (length tm)).
Proof.
  intros F H Hn HZ H0.
  destruct (E_counts_facts Xs tm tb lam Zs c0 c F H) as (EZ & A1 & A2 & A3 & _).
  assert (R : Forall (fun r : vector => length r = length (hd [] tm)) tm).
  { assert (NE : concat Zs <> []) by (intros E0; rewrite E0 in HZ; now apply HZ).
    clear -EZ NE F. revert Zs EZ NE F.
    induction Xs as [|Xi Xs IH]; intros Zs EZ NE F;
      inversion EZ as [|? Zi ? Zs' E1 E2]; subst; [now contradiction NE|].
    apply Forall_cons_iff in F as (Fi & F).
    destruct Zi as [|z Zi].
    - apply (IH Zs' E2); [exact NE|exact F].
    - destruct Xi as [|X Xi]; [inversion E1|].
      inversion E1 as [|? ? ? ? EZ0 _]; subst.
      apply Z0_I_shapes in EZ0 as (S & _).
      apply (same_shape_widths _ _ S). apply sequenceToI_one_hot.
      now apply Forall_cons_iff in Fi as (Fi & _). }
  rewrite M_value; [|exact Hn| |].
  - f_equal. f_equal; [f_equal|].
    + apply map_ext_in. intros r Hr. unfold normalize_row.
      rewrite Forall_forall in A3. now rewrite (A3 r Hr).
    + f_equal. now apply shape_of_length in A1.
  - rewrite A2. eapply shape_of_rows; [exact A1|exact R].
  - constructor; [exact H0|]. revert A3. apply Forall_impl. intros r ->. exact HZ.
Qed.

Lemma M_after_E_witness :
  exists Zs c0 c,
    E [[sequenceToI "A"; sequenceToI "C"]] [uniform_row] [[1; 0; 0; 0]] half
      = Ok (Zs, c0, c) /\
    M Zs 2 c0 c =
      Ok (vsum (concat Zs) / Q2Qc (inject_Z 2),
          map (map (fun x => x / vsum (concat Zs))) c,
          repeat (map (fun x => x / vsum c0) c0) 1).
Proof.
  destruct (E [[sequenceToI "A"; sequenceToI "C"]] [uniform_row] [[1; 0; 0; 0]] half)
    as [[[Zs c0] c]| |] eqn:H; try (vm_compute in H; discriminate).
  exists Zs, c0, c. split; [reflexivity|].
  apply (M_after_E [["A"; "C"]%string] [uniform_row] [[1; 0; 0; 0]] half Zs c0 c 2).
  - repeat constructor; simpl; tauto.
  - exact H.
  - discriminate.
  - vm_compute in H. injection H as <- <- <-.
    apply Qc_neq_of_bool. vm_compute. reflexivity.
  - vm_compute in H. injection H as <- <- <-.
    apply Qc_neq_of_bool. vm_compute. reflexivity.
Defined.
